(** * Symmetry detection (symmetry.py): model and verification

    The module [symmetry.py] finds the lines of symmetry of a closed polygon
    given as a list of [Point] objects.  This development embeds the class
    [Symmetry] in Rocq and proves properties of [get_lines_of_symmetry].

    - [Point] objects are mutable and shared by reference, so they live in an
      object store ([heap]); a Python list of points is a list of addresses.
    - The methods are written in a small state-and-exception monad [M], in
      the order in which the Python statements run.
    - The float operations of Python and of its [math] module are the
      fields of the class [Float]; the structural theorems hold for every
      instance, the numerical ones are proved for the instance over the
      real numbers ([RFloat], exact arithmetic).
    - On floats [v ** 2] raises [OverflowError] when the square is too
      large.  The methods that reach [_get_distance] are written a second
      time, with this exception, in the module [Checked]; the first version
      describes the calls in which no square overflows ([checked_refines]).
    - The instance [Binary64] is the arithmetic of Python's floats, with
      rounding, on Rocq's binary64 numbers. *)

From Stdlib Require Import Floats ZArith List Lia Reals Lra.
From stdpp Require Import base option list gmap.

(** A decimal float literal stands for the nearest binary64 number, as in
    Python. *)
Set Warnings "-inexact-float".

(** ** Numbers *)

(** The arithmetic used by [symmetry.py] on coordinates: the operators
    [+ - * /], unary minus, [abs], [v ** 2], [v ** 0.5], [<], int literals,
    and [math.atan2], [math.degrees], [math.radians], [math.cos],
    [math.sin]. *)
Class Float (F : Type) := {
  f_of_int : Z -> F;
  f_add : F -> F -> F;
  f_sub : F -> F -> F;
  f_mul : F -> F -> F;
  f_div : F -> F -> F;
  f_neg : F -> F;
  f_abs : F -> F;
  f_pow2 : F -> F;
  f_pow_half : F -> F;
  f_lt : F -> F -> bool;
  math_atan2 : F -> F -> F;
  math_degrees : F -> F;
  math_radians : F -> F;
  math_cos : F -> F;
  math_sin : F -> F
}.

(** ** Objects, store, exceptions *)

(** A [Point] object: the attributes [x] and [y]. *)
Record Point (F : Type) := mkPoint { p_x : F; p_y : F }.
Arguments mkPoint {F} _ _.
Arguments p_x {F} _.
Arguments p_y {F} _.

(** A reference to a [Point] object: its position in the store. *)
Definition addr := nat.

(** What the four observer callbacks receive. *)
Inductive event :=
| Original (index : nat) (points : list addr)
| Translated (index : nat) (points : list addr)
| Rotated (index : nat) (points : list addr)
| SymmetryFound (index : nat) (p1 p2 : addr).

(** The store of [Point] objects and the calls made to the callbacks so far.
    Objects are never freed. *)
Record state (F : Type) := mkState { heap : list (Point F); log : list event }.
Arguments mkState {F} _ _.
Arguments heap {F} _.
Arguments log {F} _.

(** [IndexError] and [OverflowError] are Python's; [DanglingRef] marks a
    reference to no object, which no Python program can hold: it is
    unreachable from a well-formed store. *)
Inductive exn := IndexError | OverflowError | DanglingRef.

Inductive result (F A : Type) :=
| Ok (a : A) (s : state F)
| Raise (e : exn).
Arguments Ok {F A} _ _.
Arguments Raise {F A} _.

Definition M (F A : Type) := state F -> result F A.

Definition ret {F A} (a : A) : M F A := fun s => Ok a s.

Definition bind {F A B} (m : M F A) (k : A -> M F B) : M F B :=
  fun s => match m s with
           | Ok a s' => k a s'
           | Raise e => Raise e
           end.

Declare Scope py_scope.
Delimit Scope py_scope with py.
Notation "x <- c1 ;; c2" := (bind c1 (fun x => c2))
  (at level 100, c1 at next level, right associativity) : py_scope.
Notation "c1 ;; c2" := (bind c1 (fun _ => c2))
  (at level 100, right associativity) : py_scope.
Open Scope py_scope.

(** [l[i]] on a Python list: a negative index counts from the end, an index
    outside [-len(l) .. len(l) - 1] has no element. *)
Definition py_index {A} (l : list A) (i : Z) : option A :=
  if (0 <=? i)%Z then l !! Z.to_nat i
  else if (- Z.of_nat (length l) <=? i)%Z then l !! Z.to_nat (Z.of_nat (length l) + i)
  else None.

Section Model.
Context {F : Type} `{Float F}.

Local Abbreviation M := (M F).

Definition raise {A} (e : exn) : M A := fun _ => Raise e.

(** [l[i]], raising [IndexError]. *)
Definition getitem {A} (l : list A) (i : Z) : M A :=
  match py_index l i with
  | Some a => ret a
  | None => raise IndexError
  end.

(** [Point(vx, vy)]: a new object. *)
Definition new_Point (vx vy : F) : M addr :=
  fun s => Ok (length (heap s)) (mkState (heap s ++ [mkPoint vx vy]) (log s)).

(** [p.x] and [p.y]. *)
Definition get_x (p : addr) : M F :=
  fun s => match heap s !! p with
           | Some c => Ok (p_x c) s
           | None => Raise DanglingRef
           end.

Definition get_y (p : addr) : M F :=
  fun s => match heap s !! p with
           | Some c => Ok (p_y c) s
           | None => Raise DanglingRef
           end.

(** [p.x = v] and [p.y = v]. *)
Definition set_x (p : addr) (v : F) : M unit :=
  fun s => match heap s !! p with
           | Some c => Ok tt (mkState (<[p := mkPoint v (p_y c)]> (heap s)) (log s))
           | None => Raise DanglingRef
           end.

Definition set_y (p : addr) (v : F) : M unit :=
  fun s => match heap s !! p with
           | Some c => Ok tt (mkState (<[p := mkPoint (p_x c) v]> (heap s)) (log s))
           | None => Raise DanglingRef
           end.

(** [if callback: callback(...)]: an installed callback is called with the
    event; the model records the call. *)
Definition notify (callback : bool) (e : event) : M unit :=
  fun s => if callback then Ok tt (mkState (heap s) (log s ++ [e])) else Ok tt s.

(** [for a in l: body(a)]. *)
Fixpoint for_each {A} (l : list A) (body : A -> M unit) : M unit :=
  match l with
  | [] => ret tt
  | a :: l' => body a ;; for_each l' body
  end.

(** [for a in l: acc = body(a, acc)], for a loop that updates local
    variables. *)
Fixpoint for_fold {A S} (l : list A) (body : A -> S -> M S) (acc : S) : M S :=
  match l with
  | [] => ret acc
  | a :: l' => acc' <- body a acc ;; for_fold l' body acc'
  end.

(** [copy.deepcopy(l)] on a list of [Point] objects: every object is copied
    once into a new object with the same attributes; [memo] maps the objects
    already copied to their copies, so an object that occurs twice in [l] is
    shared in the copy as well. *)
Fixpoint deepcopy_from (memo : gmap addr addr) (l : list addr) : M (list addr) :=
  match l with
  | [] => ret []
  | p :: l' =>
      match memo !! p with
      | Some q => rest <- deepcopy_from memo l' ;; ret (q :: rest)
      | None =>
          vx <- get_x p ;;
          vy <- get_y p ;;
          q <- new_Point vx vy ;;
          rest <- deepcopy_from (<[p := q]> memo) l' ;;
          ret (q :: rest)
      end
  end.

Definition deepcopy (l : list addr) : M (list addr) := deepcopy_from ∅ l.

(** ** The class [Symmetry] *)

Definition CLOSE_ENOUGH : Z := 5.

(** The attributes of a [Symmetry] object: the list of points, and for each
    callback whether one is installed. *)
Record Symmetry := mkSymmetry {
  _points : list addr;
  _original_callback : bool;
  _translate_callback : bool;
  _rotate_callback : bool;
  _symmetry_callback : bool
}.

Definition _translate_shape (points : list addr) (dx dy : F) : M unit :=
  for_each points (fun pc =>
    vx <- get_x pc ;; set_x pc (f_sub vx dx) ;;
    vy <- get_y pc ;; set_y pc (f_sub vy dy)).

(** Here [v ** 2] is the total operation [f_pow2]: the call in which no
    square overflows.  [Checked._get_distance] has the exception. *)
Definition _get_distance (p1 p2 : addr) : M F :=
  x2 <- get_x p2 ;; x1 <- get_x p1 ;;
  y2 <- get_y p2 ;; y1 <- get_y p1 ;;
  ret (f_pow_half (f_add (f_pow2 (f_sub x2 x1)) (f_pow2 (f_sub y2 y1)))).

Definition _get_angle (p1 p2 : addr) : M F :=
  y2 <- get_y p2 ;; y1 <- get_y p1 ;;
  x2 <- get_x p2 ;; x1 <- get_x p1 ;;
  ret (f_neg (math_degrees (math_atan2 (f_sub y2 y1) (f_sub x2 x1)))).

Definition _get_midpoint (p1 p2 : addr) : M addr :=
  x1 <- get_x p1 ;; x2 <- get_x p2 ;;
  y1 <- get_y p1 ;; y2 <- get_y p2 ;;
  new_Point (f_div (f_add x1 x2) (f_of_int 2)) (f_div (f_add y1 y2) (f_of_int 2)).

Definition _points_really_close (p1 p2 : addr) : M bool :=
  d <- _get_distance p1 p2 ;;
  ret (f_lt d (f_of_int CLOSE_ENOUGH)).

Definition _rotate_point (p : addr) (angle : F) : M unit :=
  let angle := math_radians angle in
  x0 <- get_x p ;; y0 <- get_y p ;;
  let new_x := f_sub (f_mul x0 (math_cos angle)) (f_mul y0 (math_sin angle)) in
  x1 <- get_x p ;; y1 <- get_y p ;;
  let new_y := f_add (f_mul x1 (math_sin angle)) (f_mul y1 (math_cos angle)) in
  set_x p new_x ;;
  set_y p new_y.

(** The loop of [_double_points]; the accumulator holds the local variables
    [doubled_points] and [previous_point]. *)
Definition _double_points_body (point : addr) (acc : list addr * option addr)
  : M (list addr * option addr) :=
  let '(doubled_points, previous_point) := acc in
  doubled_points <-
    match previous_point with
    | Some previous_point =>
        m <- _get_midpoint previous_point point ;;
        ret (doubled_points ++ [m])
    | None => ret doubled_points
    end ;;
  ret (doubled_points ++ [point], Some point).

Definition _double_points (points : list addr) : M (list addr) :=
  acc <- for_fold points _double_points_body ([], None) ;;
  let '(doubled_points, previous_point) := acc in
  match previous_point with
  | Some previous_point =>
      p0 <- getitem points 0 ;;
      m <- _get_midpoint previous_point p0 ;;
      ret (doubled_points ++ [m])
  | None => ret doubled_points
  end.

(** One round of the mirror loop of [get_lines_of_symmetry] (the body of
    [for mirror_index in range(half_length)]); the accumulator is the local
    variable [symmetrical]. *)
Definition mirror_body (points_copy : list addr) (index : nat)
    (mirror_index : nat) (symmetrical : bool) : M bool :=
  mirror1_point <- getitem points_copy (Z.of_nat index - Z.of_nat mirror_index) ;;
  mirror2_point <- getitem points_copy (Z.of_nat index + Z.of_nat mirror_index) ;;
  x1 <- get_x mirror1_point ;; y1 <- get_y mirror1_point ;;
  a <- new_Point x1 (f_abs y1) ;;
  x2 <- get_x mirror2_point ;; y2 <- get_y mirror2_point ;;
  b <- new_Point x2 (f_abs y2) ;;
  close <- _points_really_close a b ;;
  ret (if negb close then false else symmetrical).

Definition mirror_check (points_copy : list addr) (index half_length : nat) : M bool :=
  for_fold (seq 0 half_length) (mirror_body points_copy index) true.

(** The first part of the body of the main loop: the callbacks, the working
    copy, its translation and rotation, and the mirror loop.  It returns the
    final value of [symmetrical]. *)
Definition check_candidate (self : Symmetry) (points : list addr)
    (half_length index : nat) : M bool :=
  notify (_original_callback self) (Original index points) ;;
  points_copy <- deepcopy points ;;
  pf <- getitem points_copy (Z.of_nat index) ;;
  dx <- get_x pf ;; dy <- get_y pf ;;
  _translate_shape points_copy dx dy ;;
  notify (_translate_callback self) (Translated index points_copy) ;;
  let opposite_index := index + half_length in
  po <- getitem points_copy (Z.of_nat opposite_index) ;;
  angle <- _get_angle pf po ;;
  for_each points_copy (fun p => _rotate_point p angle) ;;
  notify (_rotate_callback self) (Rotated index points_copy) ;;
  mirror_check points_copy index half_length.

(** The body of the main loop; the accumulator is the list [symmetries]. *)
Definition candidate (self : Symmetry) (points : list addr) (half_length : nat)
    (index : nat) (symmetries : list (addr * addr)) : M (list (addr * addr)) :=
  symmetrical <- check_candidate self points half_length index ;;
  if symmetrical then
    let opposite_index := index + half_length in
    symmetry_point1 <- getitem points (Z.of_nat index) ;;
    symmetry_point2 <- getitem points (Z.of_nat opposite_index) ;;
    notify (_symmetry_callback self) (SymmetryFound index symmetry_point1 symmetry_point2) ;;
    ret (symmetries ++ [(symmetry_point1, symmetry_point2)])
  else ret symmetries.

(** [int(length / 2)]: the quotient is exact for every list length a machine
    can hold. *)
Definition half (length : nat) : nat := length / 2.

Definition get_lines_of_symmetry (self : Symmetry) : M (list (addr * addr)) :=
  let points := _points self in
  points <- _double_points points ;;
  let length := length points in
  let half_length := half length in
  for_fold (seq 0 half_length) (candidate self points half_length) [].

End Model.

(** ** Value-level counterparts of the cell updates *)

Section Values.
Context {F : Type} `{Float F}.

Definition midpoint_v (c1 c2 : Point F) : Point F :=
  mkPoint (f_div (f_add (p_x c1) (p_x c2)) (f_of_int 2))
          (f_div (f_add (p_y c1) (p_y c2)) (f_of_int 2)).

Definition translate_v (dx dy : F) (c : Point F) : Point F :=
  mkPoint (f_sub (p_x c) dx) (f_sub (p_y c) dy).

Definition rotate_v (angle : F) (c : Point F) : Point F :=
  let a := math_radians angle in
  mkPoint (f_sub (f_mul (p_x c) (math_cos a)) (f_mul (p_y c) (math_sin a)))
          (f_add (f_mul (p_x c) (math_sin a)) (f_mul (p_y c) (math_cos a))).

Definition abs_y_v (c : Point F) : Point F := mkPoint (p_x c) (f_abs (p_y c)).

Definition distance_v (c1 c2 : Point F) : F :=
  f_pow_half (f_add (f_pow2 (f_sub (p_x c2) (p_x c1)))
                    (f_pow2 (f_sub (p_y c2) (p_y c1)))).

Definition close_v (c1 c2 : Point F) : bool :=
  f_lt (distance_v c1 c2) (f_of_int CLOSE_ENOUGH).

Definition angle_v (c1 c2 : Point F) : F :=
  f_neg (math_degrees (math_atan2 (f_sub (p_y c2) (p_y c1)) (f_sub (p_x c2) (p_x c1)))).

(** The store after [f] has been applied, in turn, to the object at each
    address of [l] (an address that occurs twice is updated twice). *)
Fixpoint alter_all (f : Point F -> Point F) (l : list addr) (h : list (Point F))
  : list (Point F) :=
  match l with
  | [] => h
  | a :: l' => alter_all f l' (alter f a h)
  end.

(** Every reference of [l] points to an object of the store [h]. *)
Definition valid (h : list (Point F)) (l : list addr) : Prop :=
  Forall (fun a => a < length h) l.

(** The objects at the addresses [l] of the store [h] have the attribute
    values [vals]. *)
Definition points_to (h : list (Point F)) (l : list addr) (vals : list (Point F)) : Prop :=
  Forall2 (fun a c => h !! a = Some c) l vals.

(** [interleave [a0; a1; ..] [b0; b1; ..] = [a0; b0; a1; b1; ..]]. *)
Fixpoint interleave {A} (l1 l2 : list A) : list A :=
  match l1, l2 with
  | a :: l1', b :: l2' => a :: b :: interleave l1' l2'
  | _, _ => []
  end.

(** The midpoints of the consecutive pairs of [prev :: vals]. *)
Fixpoint mids_chain (prev : Point F) (vals : list (Point F)) : list (Point F) :=
  match vals with
  | [] => []
  | c :: vals' => midpoint_v prev c :: mids_chain c vals'
  end.

(** The midpoints of all edges of the closed polygon [vals], the edge from
    the last vertex back to the first included. *)
Definition midpoints_v (vals : list (Point F)) : list (Point F) :=
  match vals with
  | [] => []
  | c0 :: rest => mids_chain c0 rest ++ [midpoint_v (List.last rest c0) c0]
  end.

#[global] Instance Point_inhabited : Inhabited (Point F) :=
  populate (mkPoint (f_of_int 0) (f_of_int 0)).

(** The comparison made by round [mirror_index] of the mirror loop for the
    candidate [index], on the values [w] of the working copy. *)
Definition mirror_left (w : list (Point F)) (index mirror_index : nat) : Point F :=
  abs_y_v (w !!! Z.to_nat ((Z.of_nat index - Z.of_nat mirror_index)
                            mod Z.of_nat (length w))).

Definition mirror_right (w : list (Point F)) (index mirror_index : nat) : Point F :=
  abs_y_v (w !!! (index + mirror_index)).

Definition mirror_pair_v (w : list (Point F)) (index mirror_index : nat) : bool :=
  close_v (mirror_left w index mirror_index) (mirror_right w index mirror_index).

(** The two [Point] objects that each round of the mirror loop builds. *)
Definition mirror_temps (w : list (Point F)) (index : nat) (ms : list nat)
  : list (Point F) :=
  flat_map (fun m => [mirror_left w index m; mirror_right w index m]) ms.

(** The events of an optional callback. *)
Definition ev (callback : bool) (e : event) : list event :=
  if callback then [e] else [].

(** The store once the working copy [c] has been translated and rotated for
    the candidate [index]. *)
Definition work_heap (h : list (Point F)) (c : list addr) (index half_length : nat)
  : list (Point F) :=
  let pf := c !!! index in
  let h2 := alter_all (translate_v (p_x (h !!! pf)) (p_y (h !!! pf))) c h in
  let po := c !!! (index + half_length) in
  alter_all (rotate_v (angle_v (h2 !!! pf) (h2 !!! po))) c h2.

(** *** The check on values

    When the points of the polygon are distinct objects the working copy
    is a list of distinct objects as well, and the check of a candidate is a
    function of the attribute values alone. *)

(** The values of the doubled list. *)
Definition double_v (vals : list (Point F)) : list (Point F) :=
  interleave vals (midpoints_v vals).

(** The values of the working copy after the translation and the rotation
    for the candidate [index]. *)
Definition work_v (dbl : list (Point F)) (index half_length : nat) : list (Point F) :=
  let pf := dbl !!! index in
  let w1 := map (translate_v (p_x pf) (p_y pf)) dbl in
  let angle := angle_v (w1 !!! index) (w1 !!! (index + half_length)) in
  map (rotate_v angle) w1.

(** The final value of [symmetrical] for the candidate [index]. *)
Definition verdict_v (dbl : list (Point F)) (index : nat) : bool :=
  let half_length := half (length dbl) in
  forallb (mirror_pair_v (work_v dbl index half_length) index) (seq 0 half_length).

(** The confirmed candidates of a polygon given by its values. *)
Definition symmetric_indices (vals : list (Point F)) : list nat :=
  List.filter (verdict_v (double_v vals)) (seq 0 (length vals)).

End Values.

(** ** The candidates that the main loop confirms *)

Section Confirmed.
Context {F : Type} `{Float F}.

(** The axis recorded for the candidate [index]. *)
Definition axis (points : list addr) (half_length index : nat) : addr * addr :=
  (points !!! index, points !!! (index + half_length)).

(** The candidates among [indices] for which the mirror loop ends with
    [symmetrical = True], when the main loop runs over [indices] from the
    state [s]: each candidate is checked in the state in which the loop
    reaches it. *)
Fixpoint confirmed (self : Symmetry) (points : list addr) (half_length : nat)
    (indices : list nat) (s : state F) : list nat :=
  match indices with
  | [] => []
  | index :: rest =>
      match check_candidate self points half_length index s,
            candidate self points half_length index [] s with
      | Ok symmetrical _, Ok _ s' =>
          (if symmetrical then [index] else [])
          ++ confirmed self points half_length rest s'
      | _, _ => []
      end
  end.

(** The calls of the symmetry callback among the events [evs]. *)
Definition symmetry_events (evs : list event) : list (nat * addr * addr) :=
  omap (fun e => match e with
                 | SymmetryFound i p1 p2 => Some (i, p1, p2)
                 | _ => None
                 end) evs.

End Confirmed.

(** ** The detector on a polygon given by its coordinates *)

Section Detect.
Context {F : Type} `{Float F}.

(** [Symmetry(points, ...).get_lines_of_symmetry()] for a caller that builds
    one new [Point] object for each vertex of [polygon] and installs the
    four callbacks: the store holds the vertices, in order, and nothing
    else. *)
Definition detect (polygon : list (Point F)) : result F (list (addr * addr)) :=
  get_lines_of_symmetry
    (mkSymmetry (seq 0 (length polygon)) true true true true)
    (mkState polygon []).

(** The number of axes found, when the call returns. *)
Definition axis_count (r : result F (list (addr * addr))) : option nat :=
  match r with
  | Ok axes _ => Some (length axes)
  | Raise _ => None
  end.

End Detect.

(** ** The methods with [OverflowError]

    On floats, [v ** 2] raises [OverflowError] when [v] is finite and its
    square is too large for a float; no other float operation of
    [symmetry.py] raises ([+ - * /] by the literal [2], [abs], [<] and
    [v ** 0.5] on a sum of squares return a float, possibly [inf] or [nan]).
    [pow2_overflows v] tells whether [v ** 2] raises. *)
Class Overflow (F : Type) := { pow2_overflows : F -> bool }.

(** [_get_distance] and the methods and loops that reach it, with the
    exception.  Everything else is as in the first version. *)
Module Checked.
Section Model.
Context {F : Type} `{Float F} `{Overflow F}.

Local Abbreviation M := (M F).

(** [v ** 2]. *)
Definition pow2 (v : F) : M F :=
  if pow2_overflows v then raise OverflowError else ret (f_pow2 v).

Definition _get_distance (p1 p2 : addr) : M F :=
  x2 <- get_x p2 ;; x1 <- get_x p1 ;;
  sx <- pow2 (f_sub x2 x1) ;;
  y2 <- get_y p2 ;; y1 <- get_y p1 ;;
  sy <- pow2 (f_sub y2 y1) ;;
  ret (f_pow_half (f_add sx sy)).

Definition _points_really_close (p1 p2 : addr) : M bool :=
  d <- _get_distance p1 p2 ;;
  ret (f_lt d (f_of_int CLOSE_ENOUGH)).

Definition mirror_body (points_copy : list addr) (index : nat)
    (mirror_index : nat) (symmetrical : bool) : M bool :=
  mirror1_point <- getitem points_copy (Z.of_nat index - Z.of_nat mirror_index) ;;
  mirror2_point <- getitem points_copy (Z.of_nat index + Z.of_nat mirror_index) ;;
  x1 <- get_x mirror1_point ;; y1 <- get_y mirror1_point ;;
  a <- new_Point x1 (f_abs y1) ;;
  x2 <- get_x mirror2_point ;; y2 <- get_y mirror2_point ;;
  b <- new_Point x2 (f_abs y2) ;;
  close <- _points_really_close a b ;;
  ret (if negb close then false else symmetrical).

Definition mirror_check (points_copy : list addr) (index half_length : nat) : M bool :=
  for_fold (seq 0 half_length) (mirror_body points_copy index) true.

Definition check_candidate (self : Symmetry) (points : list addr)
    (half_length index : nat) : M bool :=
  notify (_original_callback self) (Original index points) ;;
  points_copy <- deepcopy points ;;
  pf <- getitem points_copy (Z.of_nat index) ;;
  dx <- get_x pf ;; dy <- get_y pf ;;
  _translate_shape points_copy dx dy ;;
  notify (_translate_callback self) (Translated index points_copy) ;;
  let opposite_index := index + half_length in
  po <- getitem points_copy (Z.of_nat opposite_index) ;;
  angle <- _get_angle pf po ;;
  for_each points_copy (fun p => _rotate_point p angle) ;;
  notify (_rotate_callback self) (Rotated index points_copy) ;;
  mirror_check points_copy index half_length.

Definition candidate (self : Symmetry) (points : list addr) (half_length : nat)
    (index : nat) (symmetries : list (addr * addr)) : M (list (addr * addr)) :=
  symmetrical <- check_candidate self points half_length index ;;
  if symmetrical then
    let opposite_index := index + half_length in
    symmetry_point1 <- getitem points (Z.of_nat index) ;;
    symmetry_point2 <- getitem points (Z.of_nat opposite_index) ;;
    notify (_symmetry_callback self) (SymmetryFound index symmetry_point1 symmetry_point2) ;;
    ret (symmetries ++ [(symmetry_point1, symmetry_point2)])
  else ret symmetries.

Definition get_lines_of_symmetry (self : Symmetry) : M (list (addr * addr)) :=
  let points := _points self in
  points <- _double_points points ;;
  let length := length points in
  let half_length := half length in
  for_fold (seq 0 half_length) (candidate self points half_length) [].

(** The detector on a polygon given by its coordinates, as [detect]. *)
Definition detect (polygon : list (Point F)) : result F (list (addr * addr)) :=
  get_lines_of_symmetry
    (mkSymmetry (seq 0 (length polygon)) true true true true)
    (mkState polygon []).

End Model.
End Checked.

(** A call with [OverflowError] does what the call without it does, or
    raises [OverflowError] at a square that overflows. *)
Definition refines {F A} `{Overflow F} (c c0 : M F A) : Prop :=
  forall s, c s = c0 s \/
            (c s = Raise OverflowError /\ exists v, pow2_overflows v = true).

Section OverflowValues.
Context {F : Type} `{Float F} `{Overflow F}.

(** Whether the round [mirror_index] of the mirror loop of the candidate
    [index] raises on the working copy [w]: the square of the difference of
    the abscissas or of the ordinates of the two points compared
    overflows. *)
Definition pair_overflows (w : list (Point F)) (index mirror_index : nat) : bool :=
  let a := mirror_left w index mirror_index in
  let b := mirror_right w index mirror_index in
  pow2_overflows (f_sub (p_x b) (p_x a)) || pow2_overflows (f_sub (p_y b) (p_y a)).

(** Whether the candidate [index] raises, for the doubled list [dbl]. *)
Definition candidate_overflows (dbl : list (Point F)) (index : nat) : bool :=
  let half_length := half (length dbl) in
  existsb (pair_overflows (work_v dbl index half_length) index) (seq 0 half_length).

(** Whether some candidate of the polygon [vals] raises. *)
Definition overflows (vals : list (Point F)) : bool :=
  existsb (candidate_overflows (double_v vals)) (seq 0 (length vals)).

End OverflowValues.

(** ** Exact arithmetic: the real numbers as [Float]

    Python's floats are replaced by the real numbers: every operation is
    exact, there is neither rounding nor overflow. *)

Definition Rltb (a b : R) : bool := if Rlt_dec a b then true else false.

(** [math.atan2(y, x)]: the angle of the vector [(x, y)], in the interval
    from [-PI] to [PI], and [0] for the null vector. *)
Definition Ratan2 (y x : R) : R :=
  if Rlt_dec 0 x then atan (y / x)
  else if Rlt_dec x 0 then
    if Rle_dec 0 y then (atan (y / x) + PI)%R else (atan (y / x) - PI)%R
  else if Rlt_dec 0 y then (PI / 2)%R
  else if Rlt_dec y 0 then (- (PI / 2))%R
  else 0%R.

(** The operations: [v ** 2] is the product [v * v]; [v ** 0.5] is the
    square root (the code applies it to a sum of two squares only);
    [math.degrees] and [math.radians] multiply by [180 / PI] and by
    [PI / 180]; [a < b] is decided by the order of the real numbers. *)
#[global] Instance RFloat : Float R := {|
  f_of_int := IZR;
  f_add := Rplus;
  f_sub := Rminus;
  f_mul := Rmult;
  f_div := Rdiv;
  f_neg := Ropp;
  f_abs := Rabs;
  f_pow2 := fun v => (v * v)%R;
  f_pow_half := sqrt;
  f_lt := Rltb;
  math_atan2 := Ratan2;
  math_degrees := fun v => (v * (180 / PI))%R;
  math_radians := fun v => (v * (PI / 180))%R;
  math_cos := cos;
  math_sin := sin
|}.

(** In exact arithmetic no square overflows. *)
#[global] Instance ROverflow : Overflow R := {| pow2_overflows := fun _ => false |}.

(** ** Binary64 arithmetic: Python's floats

    A Python float is an IEEE 754 binary64 number.  [+ - * /], unary minus,
    [abs] and [<] are the IEEE operations, rounded to nearest; [v ** 2] and
    [v ** 0.5] are taken correctly rounded, as the product [v * v] and the
    square root; an int is converted to the nearest float.  [v ** 2] raises
    [OverflowError] when [v] is finite and the rounded square is infinite.

    [math.degrees] and [math.radians] multiply by the constants
    [180 / pi] and [pi / 180] computed in binary64.  [math.atan2],
    [math.cos] and [math.sin] are those of the platform's C library,
    [libm]: only their values at zero are fixed, where C (Annex F) and
    CPython prescribe them exactly, [cos(+-0) = 1], [sin(+-0) = +-0],
    [atan2(+-0, x) = +-0] for [x] of positive sign and [+-pi] for [x] of
    negative sign, [nan] when an argument of [atan2] is [nan]. *)
Record Libm := mkLibm {
  libm_atan2 : float -> float -> float;
  libm_cos : float -> float;
  libm_sin : float -> float
}.

(** The float nearest to pi. *)
Definition pi64 : float := 0x1.921fb54442d18p+1%float.

(** [copysign(v, y)]. *)
Definition copysign (v y : float) : float :=
  if PrimFloat.get_sign y then (- PrimFloat.abs v)%float else PrimFloat.abs v.

Definition float_of_int (z : Z) : float :=
  SF2Prim (binary_normalize prec emax z 0 false).

Definition atan2_64 (libm : Libm) (y x : float) : float :=
  if PrimFloat.is_nan x || PrimFloat.is_nan y then PrimFloat.nan
  else if PrimFloat.is_zero y then
    if PrimFloat.get_sign x then copysign pi64 y else copysign 0%float y
  else libm_atan2 libm y x.

Definition cos_64 (libm : Libm) (v : float) : float :=
  if PrimFloat.is_zero v then 1%float else libm_cos libm v.

Definition sin_64 (libm : Libm) (v : float) : float :=
  if PrimFloat.is_zero v then v else libm_sin libm v.

Definition Binary64 (libm : Libm) : Float float := {|
  f_of_int := float_of_int;
  f_add := PrimFloat.add;
  f_sub := PrimFloat.sub;
  f_mul := PrimFloat.mul;
  f_div := PrimFloat.div;
  f_neg := PrimFloat.opp;
  f_abs := PrimFloat.abs;
  f_pow2 := fun v => (v * v)%float;
  f_pow_half := PrimFloat.sqrt;
  f_lt := PrimFloat.ltb;
  math_atan2 := atan2_64 libm;
  math_degrees := fun v => (v * (180 / pi64))%float;
  math_radians := fun v => (v * (pi64 / 180))%float;
  math_cos := cos_64 libm;
  math_sin := sin_64 libm
|}.

#[global] Instance Binary64Overflow : Overflow float :=
  {| pow2_overflows := fun v => PrimFloat.is_finite v
                                && PrimFloat.is_infinity (v * v)%float |}.



Definition detect_64 (libm : Libm) (polygon : list (Point float))
  : result float (list (addr * addr)) :=
  @Checked.detect float (Binary64 libm) Binary64Overflow polygon.

(** A rotation (of cosine [c] and sine [s]) followed by a translation. *)
Definition rigid_v (c s tx ty : R) (p : Point R) : Point R :=
  mkPoint (c * p_x p - s * p_y p + tx)%R (s * p_x p + c * p_y p + ty)%R.

(** The polygons of the examples. *)
Definition square : list (Point R) :=
  [mkPoint 0 0; mkPoint 0 100; mkPoint 100 100; mkPoint 100 0]%R.


Definition upright_segment : list (Point R) := [mkPoint 0 0; mkPoint 0 10]%R.

(** A scalene triangle with sides shorter than the tolerance. *)
Definition small_triangle : list (Point R) :=
  [mkPoint 0 0; mkPoint 3 0; mkPoint 1 2]%R.

(** ** The caller: [ShapeCanvas] of main.py *)

Section MainModel.
Context {F : Type} `{Float F}.

(** [ShapeCanvas._offset_points]: the offsets are ints (the slider values),
    each coordinate is a float. *)
Definition _offset_points (x y : Z) (points : list addr) : M F unit :=
  for_each points (fun p =>
    vx <- get_x p ;; set_x p (f_add vx (f_of_int x)) ;;
    vy <- get_y p ;; set_y p (f_add vy (f_of_int y))).

(** [ShapeCanvas._rotate_points]: the angle is an int, in degrees, and is
    converted once, before the loop. *)
Definition _rotate_points (points : list addr) (angle : Z) : M F unit :=
  let angle := math_radians (f_of_int angle) in
  for_each points (fun p =>
    x0 <- get_x p ;; y0 <- get_y p ;;
    let new_x := f_sub (f_mul x0 (math_cos angle)) (f_mul y0 (math_sin angle)) in
    x1 <- get_x p ;; y1 <- get_y p ;;
    let new_y := f_add (f_mul x1 (math_sin angle)) (f_mul y1 (math_cos angle)) in
    set_x p new_x ;;
    set_y p new_y).

(** The points that [ShapeCanvas._init_view] hands to [Symmetry]: a deep
    copy of the points of the selected shape, offset and then rotated by the
    values of the sliders (the three statements before the construction of
    the [Symmetry] object; the widgets are not modelled). *)
Definition _init_view_points (self_points : list addr) (xoffset yoffset rotation : Z)
  : M F (list addr) :=
  points <- deepcopy self_points ;;
  _offset_points xoffset yoffset points ;;
  _rotate_points points rotation ;;
  ret points.

(** The values behind [_offset_points] and [_rotate_points]. *)
Definition offset_v (x y : Z) (c : Point F) : Point F :=
  mkPoint (f_add (p_x c) (f_of_int x)) (f_add (p_y c) (f_of_int y)).

Definition rotate_points_v (angle : Z) (c : Point F) : Point F :=
  let a := math_radians (f_of_int angle) in
  mkPoint (f_sub (f_mul (p_x c) (math_cos a)) (f_mul (p_y c) (math_sin a)))
          (f_add (f_mul (p_x c) (math_sin a)) (f_mul (p_y c) (math_cos a))).


End MainModel.

Section Monad.
Context {F : Type}.
Implicit Types (s : state F).

Lemma bind_Ok {A B} (m : M F A) (k : A -> M F B) s a s' :
  m s = Ok a s' -> bind m k s = k a s'.
Proof. intros E. unfold bind. now rewrite E. Qed.

Lemma bind_assoc {A B C} (m : M F A) (k1 : A -> M F B) (k2 : B -> M F C) s :
  bind (bind m k1) k2 s = bind m (fun a => bind (k1 a) k2) s.
Proof. unfold bind. now destruct (m s). Qed.

Lemma bind_ret {A B} (a : A) (k : A -> M F B) s : bind (ret a) k s = k a s.
Proof. reflexivity. Qed.

End Monad.

(** [mstep E] runs the first call of a sequence with its equation [E]. *)
Ltac mnorm := repeat (rewrite bind_assoc || rewrite bind_ret).
Ltac mstep E := mnorm; rewrite (bind_Ok _ _ _ _ _ E).

Section Basics.
Context {F : Type} `{Float F}.
Implicit Types (s : state F) (h : list (Point F)) (l : list addr).

Lemma py_index_nat {A} (l : list A) (i : nat) :
  py_index l (Z.of_nat i) = l !! i.
Proof.
  unfold py_index. destruct (Z.leb_spec 0 (Z.of_nat i)); [| lia].
  now rewrite Nat2Z.id.
Qed.

Lemma py_index_sub {A} (l : list A) (i m : nat) :
  i < length l -> m <= i + length l ->
  py_index l (Z.of_nat i - Z.of_nat m)
  = l !! Z.to_nat ((Z.of_nat i - Z.of_nat m) mod Z.of_nat (length l)).
Proof.
  intros Hi Hm. unfold py_index.
  destruct (Z.leb_spec 0 (Z.of_nat i - Z.of_nat m)) as [Hge | Hlt].
  - now rewrite Z.mod_small by lia.
  - destruct (Z.leb_spec (- Z.of_nat (length l)) (Z.of_nat i - Z.of_nat m)); [| lia].
    f_equal. f_equal.
    rewrite <- (Z.mod_add _ 1) by lia.
    rewrite Z.mod_small by lia. lia.
Qed.

Lemma getitem_Ok {A} (l : list A) (i : Z) (a : A) s :
  py_index l i = Some a -> getitem (F := F) l i s = Ok a s.
Proof. intros E. unfold getitem. now rewrite E. Qed.

Lemma getitem_nat_Ok {A} (l : list A) (i : nat) (a : A) s :
  l !! i = Some a -> getitem (F := F) l (Z.of_nat i) s = Ok a s.
Proof. intros E. apply getitem_Ok. now rewrite py_index_nat. Qed.

Lemma get_x_Ok s p c : heap s !! p = Some c -> get_x p s = Ok (p_x c) s.
Proof. intros E. unfold get_x. now rewrite E. Qed.

Lemma get_y_Ok s p c : heap s !! p = Some c -> get_y p s = Ok (p_y c) s.
Proof. intros E. unfold get_y. now rewrite E. Qed.

Lemma set_x_Ok s p c v :
  heap s !! p = Some c ->
  set_x p v s = Ok tt (mkState (<[p := mkPoint v (p_y c)]> (heap s)) (log s)).
Proof. intros E. unfold set_x. now rewrite E. Qed.

Lemma set_y_Ok s p c v :
  heap s !! p = Some c ->
  set_y p v s = Ok tt (mkState (<[p := mkPoint (p_x c) v]> (heap s)) (log s)).
Proof. intros E. unfold set_y. now rewrite E. Qed.

Lemma insert_as_alter h a c (f : Point F -> Point F) :
  h !! a = Some c -> <[a := f c]> h = alter f a h.
Proof.
  intros E. apply list_eq. intros i.
  destruct (decide (a = i)) as [-> | Hne].
  - rewrite list_lookup_alter_eq, E. simpl.
    apply list_lookup_insert_eq. eapply lookup_lt_Some, E.
  - now rewrite list_lookup_insert_ne, list_lookup_alter_ne.
Qed.


Lemma valid_app h k l : valid h l -> valid (h ++ k) l.
Proof.
  unfold valid. intros Hv. eapply Forall_impl; [exact Hv |].
  intros a Ha. simpl in *. rewrite length_app. lia.
Qed.

Lemma valid_same_length h h' l : length h = length h' -> valid h l -> valid h' l.
Proof. unfold valid. intros E. now rewrite E. Qed.

Lemma length_alter_all (f : Point F -> Point F) l h :
  length (alter_all f l h) = length h.
Proof.
  revert h. induction l as [| a l IH]; intros h; simpl; [reflexivity |].
  now rewrite IH, length_alter.
Qed.

Lemma lookup_alter_all_notin (f : Point F -> Point F) l h a :
  a ∉ l -> alter_all f l h !! a = h !! a.
Proof.
  revert h. induction l as [| b l IH]; intros h Hn; simpl; [reflexivity |].
  apply not_elem_of_cons in Hn as [Hne Hn].
  rewrite IH by assumption. now apply list_lookup_alter_ne.
Qed.

Lemma lookup_alter_all_NoDup (f : Point F -> Point F) l h a :
  NoDup l -> a ∈ l -> alter_all f l h !! a = f <$> h !! a.
Proof.
  revert h. induction l as [| b l IH]; intros h Hnd Hin; simpl.
  - now apply elem_of_nil in Hin.
  - apply NoDup_cons in Hnd as [Hb Hnd].
    apply elem_of_cons in Hin as [-> | Hin].
    + rewrite lookup_alter_all_notin by assumption.
      apply list_lookup_alter_eq.
    + rewrite IH by assumption.
      rewrite list_lookup_alter_ne; [reflexivity |].
      intros ->. contradiction.
Qed.

(** A loop whose body updates the object it is given updates the objects
    of the list one after the other. *)
Lemma for_each_alter (f : Point F -> Point F) (body : addr -> M F unit) l :
  (forall a s, a < length (heap s) ->
     body a s = Ok tt (mkState (alter f a (heap s)) (log s))) ->
  forall s, valid (heap s) l ->
    for_each l body s = Ok tt (mkState (alter_all f l (heap s)) (log s)).
Proof.
  intros Hbody. induction l as [| a l IH]; intros s Hv; simpl.
  - now destruct s.
  - apply Forall_cons in Hv as [Ha Hv].
    rewrite (bind_Ok _ _ _ _ _ (Hbody a s Ha)).
    rewrite IH; [reflexivity |].
    simpl. eapply valid_same_length; [| exact Hv].
    now rewrite length_alter.
Qed.

Lemma translate_cell_Ok (dx dy : F) a s :
  a < length (heap s) ->
  (vx <- get_x a ;; set_x a (f_sub vx dx) ;;
   vy <- get_y a ;; set_y a (f_sub vy dy)) s
  = Ok tt (mkState (alter (translate_v dx dy) a (heap s)) (log s)).
Proof.
  intros Ha. destruct (lookup_lt_is_Some_2 _ _ Ha) as [c Hc].
  rewrite (bind_Ok _ _ _ _ _ (get_x_Ok _ _ _ Hc)).
  rewrite (bind_Ok _ _ _ _ _ (set_x_Ok _ _ _ _ Hc)).
  assert (Hc' : <[a := mkPoint (f_sub (p_x c) dx) (p_y c)]> (heap s) !! a
                = Some (mkPoint (f_sub (p_x c) dx) (p_y c)))
    by now apply list_lookup_insert_eq.
  set (s1 := mkState _ _).
  rewrite (bind_Ok _ _ _ _ _ (get_y_Ok s1 _ _ Hc')).
  rewrite (set_y_Ok s1 _ _ _ Hc'). subst s1. simpl.
  rewrite list_insert_insert_eq.
  now rewrite <- (insert_as_alter _ _ c (translate_v dx dy)).
Qed.

Lemma _translate_shape_Ok (dx dy : F) l s :
  valid (heap s) l ->
  _translate_shape l dx dy s
  = Ok tt (mkState (alter_all (translate_v dx dy) l (heap s)) (log s)).
Proof.
  intros Hv. unfold _translate_shape.
  apply (for_each_alter (translate_v dx dy)); [| exact Hv].
  intros a s'. apply translate_cell_Ok.
Qed.

Lemma _rotate_point_Ok (angle : F) a s :
  a < length (heap s) ->
  _rotate_point a angle s
  = Ok tt (mkState (alter (rotate_v angle) a (heap s)) (log s)).
Proof.
  intros Ha. destruct (lookup_lt_is_Some_2 _ _ Ha) as [c Hc].
  unfold _rotate_point.
  rewrite (bind_Ok _ _ _ _ _ (get_x_Ok _ _ _ Hc)).
  rewrite (bind_Ok _ _ _ _ _ (get_y_Ok _ _ _ Hc)).
  rewrite (bind_Ok _ _ _ _ _ (get_x_Ok _ _ _ Hc)).
  rewrite (bind_Ok _ _ _ _ _ (get_y_Ok _ _ _ Hc)).
  rewrite (bind_Ok _ _ _ _ _ (set_x_Ok _ _ _ _ Hc)).
  set (s1 := mkState _ _).
  assert (Hc' : heap s1 !! a = Some (mkPoint
      (f_sub (f_mul (p_x c) (math_cos (math_radians angle)))
             (f_mul (p_y c) (math_sin (math_radians angle)))) (p_y c)))
    by now apply list_lookup_insert_eq.
  rewrite (set_y_Ok s1 _ _ _ Hc'). subst s1. simpl.
  rewrite list_insert_insert_eq.
  now rewrite <- (insert_as_alter _ _ c (rotate_v angle)).
Qed.

Lemma rotate_all_Ok (angle : F) l s :
  valid (heap s) l ->
  for_each l (fun p => _rotate_point p angle) s
  = Ok tt (mkState (alter_all (rotate_v angle) l (heap s)) (log s)).
Proof.
  intros Hv. apply (for_each_alter (rotate_v angle)); [| exact Hv].
  intros a s'. apply _rotate_point_Ok.
Qed.

Lemma points_to_valid h l vals : points_to h l vals -> valid h l.
Proof.
  unfold points_to, valid. induction 1 as [| a c l vals Ha _ IH]; constructor.
  - eapply lookup_lt_Some, Ha.
  - exact IH.
Qed.

Lemma points_to_app h k l vals : points_to h l vals -> points_to (h ++ k) l vals.
Proof.
  unfold points_to. intros Hp. eapply Forall2_impl; [exact Hp |].
  intros a c Ha. simpl in *. now apply lookup_app_l_Some.
Qed.

Lemma points_to_last h l vals a c :
  points_to h l vals -> h !! a = Some c ->
  h !! List.last l a = Some (List.last vals c).
Proof.
  unfold points_to. intros Hp. revert a c.
  induction Hp as [| a' c' l vals Ha Hp IH]; intros a c Hac; [exact Hac |].
  destruct Hp as [| a'' c'' l vals Ha'' Hp]; [exact Ha |].
  change (h !! List.last (a'' :: l) a = Some (List.last (c'' :: vals) c)).
  now apply IH.
Qed.

Lemma valid_points_to h l : valid h l -> exists vals, points_to h l vals.
Proof.
  unfold valid, points_to. induction 1 as [| a l Ha _ [vals IH]].
  - exists []. constructor.
  - destruct (lookup_lt_is_Some_2 _ _ Ha) as [c Hc].
    exists (c :: vals). now constructor.
Qed.

Lemma last_cons_default {A} (l : list A) (a d : A) :
  List.last (a :: l) d = List.last l a.
Proof.
  revert a d. induction l as [| b l IH]; intros a d; [reflexivity |].
  change (List.last (b :: l) d = List.last (b :: l) a).
  now rewrite !IH.
Qed.

Lemma interleave_snoc {A} (ps qs : list A) (p0 z : A) :
  length qs = length ps ->
  p0 :: (interleave qs ps ++ [z]) = interleave (p0 :: ps) (qs ++ [z]).
Proof.
  revert p0 qs. induction ps as [| p ps IH]; intros p0 [| q qs] E;
    try discriminate; [reflexivity |].
  simpl in *. do 2 f_equal. apply IH. lia.
Qed.

Lemma length_interleave {A} (l1 l2 : list A) :
  length l1 = length l2 -> length (interleave l1 l2) = 2 * length l1.
Proof.
  revert l2. induction l1 as [| a l1 IH]; intros [| b l2] E; try discriminate;
    [reflexivity |].
  simpl in *. rewrite IH by lia. lia.
Qed.

Lemma lookup_interleave_even {A} (l1 l2 : list A) i :
  length l1 = length l2 -> interleave l1 l2 !! (2 * i) = l1 !! i.
Proof.
  revert l2 i. induction l1 as [| a l1 IH]; intros [| b l2] i E; try discriminate.
  - reflexivity.
  - destruct i as [| i]; [reflexivity |].
    replace (2 * S i) with (S (S (2 * i))) by lia. simpl in *.
    apply IH. lia.
Qed.

Lemma lookup_interleave_odd {A} (l1 l2 : list A) i :
  length l1 = length l2 -> interleave l1 l2 !! (2 * i + 1) = l2 !! i.
Proof.
  revert l2 i. induction l1 as [| a l1 IH]; intros [| b l2] i E; try discriminate.
  - reflexivity.
  - destruct i as [| i]; [reflexivity |].
    replace (2 * S i + 1) with (S (S (2 * i + 1))) by lia. simpl in *.
    apply IH. lia.
Qed.

Lemma length_mids_chain (c : Point F) vals : length (mids_chain c vals) = length vals.
Proof. revert c. induction vals as [| d vals IH]; intros c; simpl; [| rewrite IH]; reflexivity. Qed.

Lemma length_midpoints_v (vals : list (Point F)) : length (midpoints_v vals) = length vals.
Proof.
  destruct vals as [| c vals]; [reflexivity |].
  simpl. rewrite length_app, length_mids_chain. simpl. lia.
Qed.

Lemma state_eta s : mkState (heap s) (log s) = s.
Proof. now destruct s. Qed.

Lemma _get_midpoint_Ok s p1 p2 c1 c2 :
  heap s !! p1 = Some c1 -> heap s !! p2 = Some c2 ->
  _get_midpoint p1 p2 s
  = Ok (length (heap s)) (mkState (heap s ++ [midpoint_v c1 c2]) (log s)).
Proof.
  intros H1 H2. unfold _get_midpoint.
  rewrite (bind_Ok _ _ _ _ _ (get_x_Ok _ _ _ H1)).
  rewrite (bind_Ok _ _ _ _ _ (get_x_Ok _ _ _ H2)).
  rewrite (bind_Ok _ _ _ _ _ (get_y_Ok _ _ _ H1)).
  rewrite (bind_Ok _ _ _ _ _ (get_y_Ok _ _ _ H2)).
  reflexivity.
Qed.

(** The loop of [_double_points] once a first point has been seen. *)
Lemma _double_points_loop_Ok rest : forall vals s dp prev cprev,
  points_to (heap s) rest vals -> heap s !! prev = Some cprev ->
  for_fold rest _double_points_body (dp, Some prev) s
  = Ok (dp ++ interleave (seq (length (heap s)) (length rest)) rest,
        Some (List.last rest prev))
       (mkState (heap s ++ mids_chain cprev vals) (log s)).
Proof.
  induction rest as [| p rest IH]; intros vals s dp prev cprev Hp Hprev.
  - apply Forall2_nil_inv_l in Hp as ->. simpl.
    now rewrite !app_nil_r, state_eta.
  - apply Forall2_cons_inv_l in Hp as (c & vals' & Hc & Hp & ->).
    cbn [for_fold _double_points_body].
    mstep (_get_midpoint_Ok _ _ _ _ _ Hprev Hc). mnorm.
    rewrite (IH vals' _ _ p c);
      [| apply points_to_app, Hp | apply lookup_app_l_Some, Hc].
    cbn [heap log length mids_chain interleave seq].
    rewrite length_app. cbn [length].
    replace (length (heap s) + 1) with (S (length (heap s))) by lia.
    f_equal.
    + f_equal; [now rewrite <- !app_assoc | now rewrite last_cons_default].
    + now rewrite <- app_assoc.
Qed.

Lemma _double_points_Ok pts vals s :
  points_to (heap s) pts vals ->
  _double_points pts s
  = Ok (interleave pts (seq (length (heap s)) (length pts)))
       (mkState (heap s ++ midpoints_v vals) (log s)).
Proof.
  intros Hp. unfold _double_points.
  destruct pts as [| p0 rest].
  - apply Forall2_nil_inv_l in Hp as ->. simpl.
    now rewrite app_nil_r, state_eta.
  - apply Forall2_cons_inv_l in Hp as (c0 & vals' & Hc0 & Hp & ->).
    cbn [for_fold _double_points_body]. mnorm.
    mstep (_double_points_loop_Ok _ _ _ ([] ++ [p0]) _ _ Hp Hc0).
    mstep (getitem_nat_Ok (p0 :: rest) 0 p0 (mkState (heap s ++ mids_chain c0 vals') (log s)) eq_refl).
    set (s1 := mkState _ _).
    assert (Hlast : heap s1 !! List.last rest p0 = Some (List.last vals' c0)).
    { apply lookup_app_l_Some. now apply points_to_last. }
    assert (Hc0' : heap s1 !! p0 = Some c0) by now apply lookup_app_l_Some.
    mstep (_get_midpoint_Ok _ _ _ _ _ Hlast Hc0').
    unfold ret. subst s1. cbn [heap log midpoints_v].
    rewrite length_app, length_mids_chain.
    assert (El : length vals' = length rest).
    { symmetry. eapply Forall2_length, Hp. }
    rewrite El. f_equal; [| now rewrite <- app_assoc].
    cbn [app]. rewrite interleave_snoc by now rewrite length_seq.
    f_equal. change (length (p0 :: rest)) with (S (length rest)).
    now rewrite seq_S.
Qed.

Lemma notify_Ok cb e s :
  notify cb e s = Ok tt (mkState (heap s) (log s ++ ev cb e)).
Proof.
  unfold notify, ev. destruct cb; [reflexivity |].
  now rewrite app_nil_r, state_eta.
Qed.

Lemma point_eta (c : Point F) : mkPoint (p_x c) (p_y c) = c.
Proof. now destruct c. Qed.

(** [deepcopy]: the copies are new objects. *)
Lemma deepcopy_from_Ok l : forall (memo : gmap addr addr) s base,
  valid (heap s) l -> base <= length (heap s) ->
  map_Forall (fun _ q => base <= q < length (heap s)) memo ->
  exists c extra,
    deepcopy_from memo l s = Ok c (mkState (heap s ++ extra) (log s)) /\
    length c = length l /\
    Forall (fun q => base <= q < length (heap s ++ extra)) c.
Proof.
  induction l as [| p l IH]; intros memo s base Hv Hb Hm.
  - exists [], []. simpl. unfold ret. now rewrite app_nil_r, state_eta.
  - apply Forall_cons in Hv as [Hp Hv]. cbn [deepcopy_from].
    destruct (memo !! p) as [q |] eqn:Eq.
    + destruct (IH memo s base Hv Hb Hm) as (c & extra & E & Hl & Hc).
      exists (q :: c), extra. mstep E. split; [reflexivity |].
      split; [simpl; lia |]. constructor; [| exact Hc].
      specialize (Hm p q Eq). simpl in Hm. rewrite length_app. lia.
    + destruct (lookup_lt_is_Some_2 _ _ Hp) as [cp Hcp].
      mstep (get_x_Ok _ _ _ Hcp). mstep (get_y_Ok _ _ _ Hcp).
      unfold new_Point at 1. unfold bind at 1.
      set (s1 := mkState (heap s ++ [mkPoint (p_x cp) (p_y cp)]) (log s)).
      destruct (IH (<[p := length (heap s)]> memo) s1 base) as (c & extra & E & Hl & Hc).
      * apply valid_app, Hv.
      * subst s1. simpl. rewrite length_app. lia.
      * apply map_Forall_insert_2.
        -- subst s1. simpl. rewrite length_app. simpl. lia.
        -- intros a q Haq. specialize (Hm a q Haq). subst s1. simpl in *.
           rewrite length_app. lia.
      * exists (length (heap s) :: c), ([mkPoint (p_x cp) (p_y cp)] ++ extra).
        mstep E. subst s1. cbn [heap log] in *.
        rewrite <- app_assoc in Hc. rewrite <- app_assoc.
        split; [reflexivity |]. split; [simpl; lia |].
        constructor; [| exact Hc]. rewrite !length_app. simpl. lia.
Qed.

(** [deepcopy] of a list of distinct objects: one new object for each, in
    the order of the list. *)
Lemma deepcopy_from_NoDup l : forall (memo : gmap addr addr) s vals,
  points_to (heap s) l vals -> NoDup l -> (forall p, p ∈ l -> memo !! p = None) ->
  deepcopy_from memo l s
  = Ok (seq (length (heap s)) (length l)) (mkState (heap s ++ vals) (log s)).
Proof.
  induction l as [| p l IH]; intros memo s vals Hp Hnd Hm.
  - apply Forall2_nil_inv_l in Hp as ->. simpl. unfold ret.
    now rewrite app_nil_r, state_eta.
  - apply Forall2_cons_inv_l in Hp as (c & vals' & Hc & Hp & ->).
    apply NoDup_cons in Hnd as [Hnp Hnd].
    cbn [deepcopy_from]. rewrite (Hm p) by (apply elem_of_cons; now left).
    mstep (get_x_Ok _ _ _ Hc). mstep (get_y_Ok _ _ _ Hc).
    unfold new_Point at 1. unfold bind at 1.
    set (s1 := mkState _ _).
    assert (E : deepcopy_from (<[p := length (heap s)]> memo) l s1
                = Ok (seq (length (heap s1)) (length l))
                     (mkState (heap s1 ++ vals') (log s1))).
    { apply IH.
      - apply points_to_app, Hp.
      - exact Hnd.
      - intros a Ha. rewrite lookup_insert_ne; [| intros ->; contradiction].
        apply Hm. apply elem_of_cons. now right. }
    mstep E. unfold ret. subst s1. cbn [heap log length seq].
    rewrite length_app, point_eta, <- app_assoc. cbn [length app].
    now replace (length (heap s) + 1) with (S (length (heap s))) by lia.
Qed.

Lemma _get_distance_Ok s p1 p2 c1 c2 :
  heap s !! p1 = Some c1 -> heap s !! p2 = Some c2 ->
  _get_distance p1 p2 s = Ok (distance_v c1 c2) s.
Proof.
  intros H1 H2. unfold _get_distance.
  mstep (get_x_Ok _ _ _ H2). mstep (get_x_Ok _ _ _ H1).
  mstep (get_y_Ok _ _ _ H2). mstep (get_y_Ok _ _ _ H1).
  reflexivity.
Qed.

Lemma _points_really_close_Ok s p1 p2 c1 c2 :
  heap s !! p1 = Some c1 -> heap s !! p2 = Some c2 ->
  _points_really_close p1 p2 s = Ok (close_v c1 c2) s.
Proof.
  intros H1 H2. unfold _points_really_close.
  mstep (_get_distance_Ok _ _ _ _ _ H1 H2). reflexivity.
Qed.

Lemma _get_angle_Ok s p1 p2 c1 c2 :
  heap s !! p1 = Some c1 -> heap s !! p2 = Some c2 ->
  _get_angle p1 p2 s = Ok (angle_v c1 c2) s.
Proof.
  intros H1 H2. unfold _get_angle.
  mstep (get_y_Ok _ _ _ H2). mstep (get_y_Ok _ _ _ H1).
  mstep (get_x_Ok _ _ _ H2). mstep (get_x_Ok _ _ _ H1).
  reflexivity.
Qed.

Lemma points_to_lookup h l vals i :
  points_to h l vals -> i < length l ->
  exists a, l !! i = Some a /\ h !! a = Some (vals !!! i).
Proof.
  intros Hp Hi. destruct (lookup_lt_is_Some_2 _ _ Hi) as [a Ha].
  destruct (Forall2_lookup_l _ _ _ _ _ Hp Ha) as (c & Hc & Hac).
  exists a. split; [exact Ha |].
  now rewrite (list_lookup_total_correct _ _ _ Hc).
Qed.

(** One round of the mirror loop: two reads of the working copy, the first
    with Python's wrap-around for a negative index, two new objects and
    one comparison. *)
Lemma mirror_body_Ok pc vals index m sym s :
  points_to (heap s) pc vals ->
  index + m < length pc -> m <= index + length pc ->
  mirror_body pc index m sym s
  = Ok (if negb (mirror_pair_v vals index m) then false else sym)
       (mkState (heap s ++ [mirror_left vals index m; mirror_right vals index m])
                (log s)).
Proof.
  intros Hp Hr Hl.
  assert (El : length vals = length pc) by (symmetry; eapply Forall2_length, Hp).
  assert (Hk : Z.to_nat ((Z.of_nat index - Z.of_nat m) mod Z.of_nat (length pc))
               < length pc).
  { pose proof (Z.mod_pos_bound (Z.of_nat index - Z.of_nat m)
                  (Z.of_nat (length pc))). lia. }
  destruct (points_to_lookup _ _ _ _ Hp Hk) as (a1 & Ha1 & Hc1).
  destruct (points_to_lookup _ _ _ _ Hp Hr) as (a2 & Ha2 & Hc2).
  unfold mirror_body.
  assert (E1 : py_index pc (Z.of_nat index - Z.of_nat m) = Some a1).
  { rewrite py_index_sub by lia. exact Ha1. }
  mstep (getitem_Ok _ _ _ s E1).
  assert (E2 : py_index pc (Z.of_nat index + Z.of_nat m) = Some a2).
  { rewrite <- Nat2Z.inj_add, py_index_nat. exact Ha2. }
  mstep (getitem_Ok _ _ _ s E2).
  mstep (get_x_Ok _ _ _ Hc1). mstep (get_y_Ok _ _ _ Hc1).
  unfold new_Point at 1. unfold bind at 1.
  set (s1 := mkState _ _).
  assert (Hc2' : heap s1 !! a2 = Some (vals !!! (index + m)))
    by now apply lookup_app_l_Some.
  mstep (get_x_Ok _ _ _ Hc2'). mstep (get_y_Ok _ _ _ Hc2').
  unfold new_Point at 1. unfold bind at 1.
  set (s2 := mkState _ _).
  assert (Hn1 : heap s2 !! length (heap s) = Some (mirror_left vals index m)).
  { subst s2 s1. cbn [heap]. rewrite <- app_assoc.
    rewrite lookup_app_r by lia. rewrite Nat.sub_diag.
    unfold mirror_left, abs_y_v. now rewrite El. }
  assert (Hn2 : heap s2 !! length (heap s1) = Some (mirror_right vals index m)).
  { subst s2. cbn [heap]. rewrite lookup_app_r by lia. now rewrite Nat.sub_diag. }
  mstep (_points_really_close_Ok _ _ _ _ _ Hn1 Hn2).
  unfold ret, mirror_pair_v. subst s2 s1. cbn [heap log].
  unfold mirror_left, mirror_right, abs_y_v.
  now rewrite El, <- app_assoc.
Qed.

Lemma mirror_loop_Ok pc vals index ms : forall sym s,
  points_to (heap s) pc vals ->
  Forall (fun m => index + m < length pc /\ m <= index + length pc) ms ->
  for_fold ms (mirror_body pc index) sym s
  = Ok (sym && forallb (mirror_pair_v vals index) ms)
       (mkState (heap s ++ mirror_temps vals index ms) (log s)).
Proof.
  induction ms as [| m ms IH]; intros sym s Hp Hms.
  - simpl. unfold ret. now rewrite andb_true_r, app_nil_r, state_eta.
  - apply Forall_cons in Hms as [[Hr Hl] Hms]. cbn [for_fold].
    mstep (mirror_body_Ok _ _ _ _ sym _ Hp Hr Hl).
    rewrite IH; [| apply points_to_app, Hp | exact Hms].
    cbn [heap log forallb mirror_temps flat_map]. rewrite <- app_assoc.
    f_equal. destruct (mirror_pair_v vals index m), sym; reflexivity.
Qed.

Lemma mirror_check_Ok pc vals index half_length s :
  points_to (heap s) pc vals ->
  length pc = 2 * half_length -> index < half_length ->
  mirror_check pc index half_length s
  = Ok (forallb (mirror_pair_v vals index) (seq 0 half_length))
       (mkState (heap s ++ mirror_temps vals index (seq 0 half_length)) (log s)).
Proof.
  intros Hp El Hi. unfold mirror_check.
  rewrite (mirror_loop_Ok _ vals); [reflexivity | exact Hp |].
  apply Forall_forall. intros m Hm. apply elem_of_seq in Hm. lia.
Qed.


Lemma valid_lookup_total h l i :
  valid h l -> i < length l ->
  l !! i = Some (l !!! i) /\ h !! (l !!! i) = Some (h !!! (l !!! i)).
Proof.
  intros Hv Hi.
  pose proof (list_lookup_lookup_total_lt l i Hi) as E. split; [exact E |].
  apply list_lookup_lookup_total_lt.
  unfold valid in Hv. rewrite Forall_forall in Hv. apply Hv.
  eapply list_elem_of_lookup_2, E.
Qed.

(** The body of the main loop after the working copy [c] has been made. *)
Lemma check_candidate_with_copy self points half_length index s c s1 vals3 :
  deepcopy points
    (mkState (heap s) (log s ++ ev (_original_callback self) (Original index points)))
  = Ok c s1 ->
  valid (heap s1) c -> length c = 2 * half_length -> index < half_length ->
  points_to (work_heap (heap s1) c index half_length) c vals3 ->
  check_candidate self points half_length index s
  = Ok (forallb (mirror_pair_v vals3 index) (seq 0 half_length))
       (mkState (work_heap (heap s1) c index half_length
                 ++ mirror_temps vals3 index (seq 0 half_length))
                (log s1 ++ ev (_translate_callback self) (Translated index c)
                        ++ ev (_rotate_callback self) (Rotated index c))).
Proof.
  intros Ecopy Hv El Hi Hp3. unfold check_candidate.
  mstep (notify_Ok (_original_callback self) (Original index points) s).
  mstep Ecopy.
  destruct (valid_lookup_total _ _ index Hv ltac:(lia)) as [Epf Hpf].
  mstep (getitem_nat_Ok _ _ _ s1 Epf).
  mstep (get_x_Ok _ _ _ Hpf). mstep (get_y_Ok _ _ _ Hpf).
  mstep (_translate_shape_Ok (p_x (heap s1 !!! (c !!! index)))
           (p_y (heap s1 !!! (c !!! index))) c s1 Hv).
  set (h2 := alter_all _ c (heap s1)).
  assert (Hv2 : valid h2 c).
  { eapply valid_same_length; [| exact Hv]. subst h2.
    now rewrite length_alter_all. }
  mstep (notify_Ok (_translate_callback self) (Translated index c)
           (mkState h2 (log s1))).
  cbn [heap log].
  destruct (valid_lookup_total _ _ (index + half_length) Hv2 ltac:(lia)) as [Epo Hpo].
  destruct (valid_lookup_total _ _ index Hv2 ltac:(lia)) as [_ Hpf2].
  set (s2 := mkState h2 _).
  mstep (getitem_nat_Ok _ _ _ s2 Epo).
  mstep (_get_angle_Ok s2 _ _ _ _ Hpf2 Hpo).
  mstep (rotate_all_Ok (angle_v (h2 !!! (c !!! index))
                                (h2 !!! (c !!! (index + half_length)))) c s2 Hv2).
  fold (work_heap (heap s1) c index half_length).
  set (h3 := work_heap _ _ _ _) in *.
  mstep (notify_Ok (_rotate_callback self) (Rotated index c)
           (mkState h3 (log s2))).
  rewrite (mirror_check_Ok _ vals3); [| exact Hp3 | exact El | exact Hi].
  subst s2. cbn [heap log]. now rewrite <- app_assoc.
Qed.

Lemma alter_all_above (f : Point F -> Point F) c : forall h k,
  Forall (fun q => length h <= q) c ->
  exists k', alter_all f c (h ++ k) = h ++ k' /\ length k' = length k.
Proof.
  induction c as [| q c IH]; intros h k Hc.
  - now exists k.
  - apply Forall_cons in Hc as [Hq Hc]. cbn [alter_all].
    rewrite alter_app_r_alt by exact Hq.
    destruct (IH h (alter f (q - length h) k) Hc) as (k' & E & Hl).
    exists k'. split; [exact E |]. now rewrite Hl, length_alter.
Qed.

(** The candidate check: it succeeds, it leaves the objects that existed
    before it as they were, and it calls no symmetry callback. *)
Lemma check_candidate_Ok self points half_length index s :
  valid (heap s) points -> length points = 2 * half_length ->
  index < half_length ->
  exists b extra evs,
    check_candidate self points half_length index s
    = Ok b (mkState (heap s ++ extra) (log s ++ evs)) /\
    symmetry_events evs = [].
Proof.
  intros Hv El Hi.
  set (s0 := mkState (heap s)
               (log s ++ ev (_original_callback self) (Original index points))).
  destruct (deepcopy_from_Ok points ∅ s0 (length (heap s0)))
    as (c & extra & Ecopy & Hlc & Hc); [exact Hv | lia | apply map_Forall_empty |].
  set (s1 := mkState _ _) in Ecopy.
  assert (Hv1 : valid (heap s1) c).
  { unfold valid. eapply Forall_impl; [exact Hc |]. intros q Hq. simpl in *. lia. }
  assert (Hv3 : valid (work_heap (heap s1) c index half_length) c).
  { eapply valid_same_length; [| exact Hv1]. unfold work_heap.
    now rewrite !length_alter_all. }
  destruct (valid_points_to _ _ Hv3) as [vals3 Hp3].
  rewrite (check_candidate_with_copy self points half_length index s c s1 vals3
             Ecopy Hv1 ltac:(lia) Hi Hp3).
  assert (Hab : Forall (fun q => length (heap s) <= q) c).
  { eapply Forall_impl; [exact Hc |]. intros q Hq. simpl in *. lia. }
  unfold work_heap. subst s1 s0. cbn [heap log].
  match goal with |- context [alter_all (translate_v ?dx ?dy) c _] =>
    destruct (alter_all_above (translate_v dx dy) c (heap s) extra Hab)
      as (k2 & E2 & _) end.
  rewrite E2.
  match goal with |- context [alter_all (rotate_v ?a) c _] =>
    destruct (alter_all_above (rotate_v a) c (heap s) k2 Hab)
      as (k3 & E3 & _) end.
  rewrite E3.
  eexists _, (k3 ++ _), _. rewrite <- !app_assoc. split; [reflexivity |].
  unfold ev.
  destruct (_original_callback self), (_translate_callback self),
    (_rotate_callback self); reflexivity.
Qed.

Lemma candidate_Ok self points half_length index s b s' :
  length points = 2 * half_length -> index < half_length ->
  check_candidate self points half_length index s = Ok b s' ->
  forall syms,
    candidate self points half_length index syms s
    = Ok (syms ++ if b then [axis points half_length index] else [])
         (mkState (heap s')
            (log s' ++ if b then ev (_symmetry_callback self)
                                   (SymmetryFound index (points !!! index)
                                      (points !!! (index + half_length)))
                       else [])).
Proof.
  intros El Hi E syms. unfold candidate. mstep E.
  destruct b.
  - mstep (getitem_nat_Ok points index _ s'
             (list_lookup_lookup_total_lt points index ltac:(lia))).
    mstep (getitem_nat_Ok points (index + half_length) _ s'
             (list_lookup_lookup_total_lt points (index + half_length) ltac:(lia))).
    mstep (notify_Ok (_symmetry_callback self)
             (SymmetryFound index (points !!! index)
                (points !!! (index + half_length))) s').
    reflexivity.
  - unfold ret. now rewrite !app_nil_r, state_eta.
Qed.

Lemma symmetry_events_app evs1 evs2 :
  symmetry_events (evs1 ++ evs2) = symmetry_events evs1 ++ symmetry_events evs2.
Proof. apply omap_app. Qed.

Lemma confirmed_sublist self points half_length indices : forall s,
  confirmed self points half_length indices s `sublist_of` indices.
Proof.
  induction indices as [| i indices IH]; intros s; simpl; [constructor |].
  destruct (check_candidate self points half_length i s) as [b s1 |];
    [| apply sublist_nil_l].
  destruct (candidate self points half_length i [] s) as [r s2 |];
    [| apply sublist_nil_l].
  destruct b; simpl.
  - apply sublist_skip, IH.
  - apply sublist_cons, IH.
Qed.

(** The main loop: it succeeds, it records the axes of the confirmed
    candidates in the order of the loop and calls the symmetry callback for
    each of them, and it leaves the objects that existed before as they
    were. *)
Lemma main_loop_Ok self points half_length indices : forall s syms,
  valid (heap s) points -> length points = 2 * half_length ->
  Forall (fun i => i < half_length) indices ->
  exists extra evs,
    for_fold indices (candidate self points half_length) syms s
    = Ok (syms ++ map (axis points half_length)
                      (confirmed self points half_length indices s))
         (mkState (heap s ++ extra) (log s ++ evs)) /\
    symmetry_events evs
    = if _symmetry_callback self
      then map (fun i => (i, points !!! i, points !!! (i + half_length)))
               (confirmed self points half_length indices s)
      else [].
Proof.
  induction indices as [| i indices IH]; intros s syms Hv El Hall.
  - exists [], []. simpl. unfold ret.
    rewrite !app_nil_r, state_eta. split; [reflexivity |].
    now destruct (_symmetry_callback self).
  - apply Forall_cons in Hall as [Hi Hall].
    destruct (check_candidate_Ok self points half_length i s Hv El Hi)
      as (b & extra1 & evs1 & E & Hevs1).
    cbn [for_fold confirmed]. rewrite E.
    mstep (candidate_Ok _ _ _ _ _ _ _ El Hi E syms).
    rewrite (candidate_Ok _ _ _ _ _ _ _ El Hi E []).
    cbn [heap log].
    set (s2 := mkState _ _).
    destruct (IH s2 (syms ++ if b then [axis points half_length i] else []))
      as (extra2 & evs2 & E2 & Hevs2).
    { subst s2. cbn [heap]. apply valid_app, Hv. }
    { exact El. }
    { exact Hall. }
    rewrite E2. subst s2. cbn [heap log].
    exists (extra1 ++ extra2),
      (evs1 ++ (if b then ev (_symmetry_callback self)
                            (SymmetryFound i (points !!! i)
                               (points !!! (i + half_length)))
                else []) ++ evs2).
    split.
    + rewrite map_app, <- !app_assoc. now destruct b.
    + rewrite !symmetry_events_app, Hevs1, Hevs2. cbn [app].
      destruct b, (_symmetry_callback self); reflexivity.
Qed.

Lemma half_double n : half (2 * n) = n.
Proof. unfold half. rewrite Nat.mul_comm. apply Nat.div_mul. lia. Qed.

Lemma valid_interleave h l1 l2 :
  valid h l1 -> valid h l2 -> valid h (interleave l1 l2).
Proof.
  unfold valid. intros H1. revert l2.
  induction H1 as [| a l1 Ha _ IH]; intros l2 H2; [constructor |].
  destruct H2 as [| b l2 Hb H2]; [constructor |].
  simpl. repeat constructor; try assumption. now apply IH.
Qed.

Lemma valid_seq_app h k : valid (h ++ k) (seq (length h) (length k)).
Proof.
  apply Forall_forall. intros a Ha. apply elem_of_seq in Ha.
  rewrite length_app. lia.
Qed.

(** [get_lines_of_symmetry] as a whole. *)
Lemma get_lines_of_symmetry_spec self s vals :
  points_to (heap s) (_points self) vals ->
  let n := length (_points self) in
  let points := interleave (_points self) (seq (length (heap s)) n) in
  let s_d := mkState (heap s ++ midpoints_v vals) (log s) in
  let conf := confirmed self points n (seq 0 n) s_d in
  _double_points (_points self) s = Ok points s_d /\
  length points = 2 * n /\
  valid (heap s_d) points /\
  exists extra evs,
    get_lines_of_symmetry self s
    = Ok (map (axis points n) conf)
         (mkState (heap s_d ++ extra) (log s ++ evs)) /\
    symmetry_events evs
    = if _symmetry_callback self
      then map (fun i => (i, points !!! i, points !!! (i + n))) conf
      else [].
Proof.
  intros Hp n points s_d conf.
  pose proof (_double_points_Ok _ _ _ Hp) as Ed. fold n points s_d in Ed.
  assert (En : length vals = n) by (symmetry; eapply Forall2_length, Hp).
  assert (El : length points = 2 * n).
  { subst points. apply length_interleave. now rewrite length_seq. }
  assert (Hv : valid (heap s_d) points).
  { subst points s_d. cbn [heap]. apply valid_interleave.
    - apply valid_app. eapply points_to_valid, Hp.
    - rewrite <- En, <- (length_midpoints_v vals). apply valid_seq_app. }
  split; [exact Ed |]. split; [exact El |]. split; [exact Hv |].
  destruct (main_loop_Ok self points n (seq 0 n) s_d [] Hv El)
    as (extra & evs & E & Hevs).
  { apply Forall_forall. intros i Hi. apply elem_of_seq in Hi. lia. }
  exists extra, evs. split; [| exact Hevs].
  unfold get_lines_of_symmetry. mstep Ed. fold points.
  rewrite El, half_double. exact E.
Qed.

(** *** Distinct objects: the check is a function of the values *)

Lemma alter_all_seq (f : Point F -> Point F) h k :
  alter_all f (seq (length h) (length k)) (h ++ k) = h ++ map f k.
Proof.
  apply list_eq. intros a.
  destruct (decide (a ∈ seq (length h) (length k))) as [Hin | Hout].
  - rewrite lookup_alter_all_NoDup by (apply NoDup_seq || exact Hin).
    apply elem_of_seq in Hin.
    rewrite !lookup_app_r by lia. now rewrite list_lookup_fmap.
  - rewrite lookup_alter_all_notin by exact Hout.
    rewrite elem_of_seq in Hout.
    destruct (decide (a < length h)).
    + now rewrite !lookup_app_l by lia.
    + rewrite !lookup_ge_None_2; [reflexivity | |];
        rewrite length_app, ?length_map; lia.
Qed.

Lemma points_to_seq w : forall h, points_to (h ++ w) (seq (length h) (length w)) w.
Proof.
  unfold points_to. induction w as [| c w IH]; intros h; [constructor |].
  cbn [length seq]. constructor.
  - rewrite lookup_app_r by lia. now rewrite Nat.sub_diag.
  - specialize (IH (h ++ [c])). rewrite length_app in IH. cbn [length] in IH.
    rewrite <- app_assoc in IH. cbn [app] in IH.
    now replace (length h + 1) with (S (length h)) in IH by lia.
Qed.

Lemma lookup_total_seq_app h (k : list (Point F)) i :
  i < length k ->
  (h ++ k) !!! (seq (length h) (length k) !!! i) = k !!! i.
Proof.
  intros Hi. rewrite lookup_total_seq_lt by exact Hi.
  rewrite lookup_total_app_r by lia. f_equal. lia.
Qed.

Lemma work_heap_seq h dvals index half_length :
  index + half_length < length dvals ->
  work_heap (h ++ dvals) (seq (length h) (length dvals)) index half_length
  = h ++ work_v dvals index half_length.
Proof.
  intros Hi. unfold work_heap, work_v.
  rewrite lookup_total_seq_app by lia.
  rewrite alter_all_seq.
  set (w1 := map _ dvals).
  assert (E1 : length dvals = length w1) by (subst w1; now rewrite length_map).
  rewrite E1, !lookup_total_seq_app by lia.
  apply alter_all_seq.
Qed.

Lemma length_work_v (dbl : list (Point F)) index half_length :
  length (work_v dbl index half_length) = length dbl.
Proof. unfold work_v. now rewrite !length_map. Qed.

Lemma check_candidate_NoDup self points dvals half_length index s :
  NoDup points -> points_to (heap s) points dvals ->
  length points = 2 * half_length -> index < half_length ->
  exists extra evs,
    check_candidate self points half_length index s
    = Ok (verdict_v dvals index) (mkState (heap s ++ extra) (log s ++ evs)).
Proof.
  intros Hnd Hp El Hi.
  assert (Ed : length dvals = length points) by (symmetry; eapply Forall2_length, Hp).
  set (s0 := mkState (heap s)
               (log s ++ ev (_original_callback self) (Original index points))).
  assert (Ecopy : deepcopy points s0
                  = Ok (seq (length (heap s)) (length points))
                       (mkState (heap s ++ dvals) (log s0))).
  { unfold deepcopy. apply (deepcopy_from_NoDup points ∅ s0 dvals Hp Hnd).
    intros a _. apply lookup_empty. }
  set (c := seq _ _) in Ecopy. set (s1 := mkState (heap s ++ dvals) _) in Ecopy.
  assert (Ew : work_heap (heap s1) c index half_length
               = heap s ++ work_v dvals index half_length).
  { subst c s1. cbn [heap]. rewrite <- Ed. apply work_heap_seq. lia. }
  assert (Hv1 : valid (heap s1) c).
  { subst c s1. cbn [heap]. rewrite <- Ed. apply valid_seq_app. }
  assert (Hp3 : points_to (work_heap (heap s1) c index half_length) c
                  (work_v dvals index half_length)).
  { rewrite Ew. subst c. rewrite <- Ed, <- (length_work_v dvals index half_length).
    apply points_to_seq. }
  rewrite (check_candidate_with_copy self points half_length index s c s1 _
             Ecopy Hv1 ltac:(subst c; rewrite length_seq; lia) Hi Hp3).
  rewrite Ew. subst s1 s0. cbn [log].
  rewrite <- !app_assoc.
  unfold verdict_v. rewrite Ed, El, half_double. eauto.
Qed.

Lemma confirmed_NoDup self points dvals half_length indices : forall s,
  NoDup points -> points_to (heap s) points dvals ->
  length points = 2 * half_length ->
  Forall (fun i => i < half_length) indices ->
  confirmed self points half_length indices s
  = List.filter (verdict_v dvals) indices.
Proof.
  induction indices as [| i indices IH]; intros s Hnd Hp El Hall; [reflexivity |].
  apply Forall_cons in Hall as [Hi Hall].
  destruct (check_candidate_NoDup self points dvals half_length i s Hnd Hp El Hi)
    as (extra & evs & E).
  cbn [confirmed List.filter]. rewrite E.
  rewrite (candidate_Ok _ _ _ _ _ _ _ El Hi E []).
  rewrite IH; try assumption.
  - now destruct (verdict_v dvals i).
  - cbn [heap]. apply points_to_app, Hp.
Qed.

Lemma points_to_interleave h l1 l2 v1 v2 :
  points_to h l1 v1 -> points_to h l2 v2 ->
  points_to h (interleave l1 l2) (interleave v1 v2).
Proof.
  unfold points_to. intros H1. revert l2 v2.
  induction H1 as [| a c l1 v1 Ha _ IH]; intros l2 v2 H2; [constructor |].
  destruct H2 as [| b d l2 v2 Hb H2]; [constructor |].
  simpl. repeat constructor; try assumption. now apply IH.
Qed.

Lemma elem_of_interleave {A} (l1 l2 : list A) a :
  a ∈ interleave l1 l2 -> a ∈ l1 \/ a ∈ l2.
Proof.
  revert l2. induction l1 as [| b l1 IH]; intros [| d l2] Ha; simpl in Ha;
    try now apply elem_of_nil in Ha.
  rewrite !elem_of_cons in Ha. rewrite !elem_of_cons.
  destruct Ha as [-> | [-> | Ha]]; [tauto | tauto |].
  destruct (IH _ Ha); tauto.
Qed.

Lemma NoDup_interleave {A} (l1 l2 : list A) :
  NoDup l1 -> NoDup l2 -> (forall a, a ∈ l1 -> a ∉ l2) ->
  NoDup (interleave l1 l2).
Proof.
  intros H1. revert l2. induction H1 as [| a l1 Ha H1 IH]; intros l2 H2 Hd;
    [constructor |].
  destruct H2 as [| b l2 Hb H2]; [constructor |].
  simpl. constructor; [| constructor].
  - rewrite elem_of_cons. intros [-> | Hin].
    + apply (Hd b); apply elem_of_cons; now left.
    + apply elem_of_interleave in Hin as [Hin | Hin]; [contradiction |].
      apply (Hd a); apply elem_of_cons; [now left | now right].
  - intros Hin. apply elem_of_interleave in Hin as [Hin | Hin]; [| contradiction].
    apply (Hd b); apply elem_of_cons; [now right | now left].
  - apply IH; [exact H2 |]. intros x Hx Hx2.
    apply (Hd x); apply elem_of_cons; now right.
Qed.

(** [get_lines_of_symmetry] on a polygon of distinct [Point] objects: the
    axes of the candidates that pass the check on values. *)
Lemma get_lines_of_symmetry_NoDup self s vals :
  NoDup (_points self) -> points_to (heap s) (_points self) vals ->
  let n := length (_points self) in
  let points := interleave (_points self) (seq (length (heap s)) n) in
  exists s',
    get_lines_of_symmetry self s
    = Ok (map (axis points n) (symmetric_indices vals)) s'.
Proof.
  intros Hnd Hp n points.
  destruct (get_lines_of_symmetry_spec self s vals Hp)
    as (_ & El & _ & extra & evs & E & _).
  fold n points in El, E.
  assert (En : length vals = n) by (symmetry; eapply Forall2_length, Hp).
  rewrite (confirmed_NoDup self points (double_v vals) n) in E.
  - eexists. unfold symmetric_indices. rewrite En. exact E.
  - subst points. apply NoDup_interleave; [exact Hnd | apply NoDup_seq |].
    intros a Ha Hs. apply elem_of_seq in Hs.
    pose proof (points_to_valid _ _ _ Hp) as Hv.
    unfold valid in Hv. rewrite Forall_forall in Hv. specialize (Hv a Ha). lia.
  - cbn [heap]. subst points. unfold double_v. apply points_to_interleave.
    + apply points_to_app, Hp.
    + rewrite <- En, <- (length_midpoints_v vals). apply points_to_seq.
  - exact El.
  - apply Forall_forall. intros i Hi. apply elem_of_seq in Hi. lia.
Qed.

Lemma detect_spec (polygon : list (Point F)) :
  let n := length polygon in
  exists s',
    detect polygon
    = Ok (map (axis (interleave (seq 0 n) (seq n n)) n) (symmetric_indices polygon)) s'.
Proof.
  intros n. unfold detect.
  pose proof (get_lines_of_symmetry_NoDup
                (mkSymmetry (seq 0 n) true true true true)
                (mkState polygon []) polygon) as Hs.
  cbn [_points heap] in Hs. rewrite length_seq in Hs.
  apply Hs; [apply NoDup_seq | apply (points_to_seq polygon [])].
Qed.

Lemma last_lookup_total (rest : list (Point F)) : forall c0,
  List.last rest c0 = (c0 :: rest) !!! length rest.
Proof.
  induction rest as [| c rest IH]; intros c0; [reflexivity |].
  rewrite last_cons_default. apply IH.
Qed.

Lemma lookup_mids_chain (rest : list (Point F)) : forall c0 i,
  i < length rest ->
  mids_chain c0 rest !! i
  = Some (midpoint_v ((c0 :: rest) !!! i) ((c0 :: rest) !!! S i)).
Proof.
  induction rest as [| c rest IH]; intros c0 i Hi; simpl in Hi; [lia |].
  destruct i as [| i]; [reflexivity |].
  cbn [mids_chain]. apply (IH c i). lia.
Qed.

(** The midpoint stored after vertex [i] is the midpoint of the vertices
    [i] and [i + 1], and of the last and the first vertex for the last. *)
Lemma lookup_midpoints_v (vals : list (Point F)) i :
  i < length vals ->
  midpoints_v vals !! i
  = Some (midpoint_v (vals !!! i) (vals !!! ((i + 1) mod length vals))).
Proof.
  destruct vals as [| c0 rest]; cbn [length midpoints_v]; [lia |]. intros Hi.
  destruct (decide (i < length rest)) as [Hlt | Hge].
  - rewrite lookup_app_l by now rewrite length_mids_chain.
    rewrite lookup_mids_chain by exact Hlt.
    rewrite Nat.mod_small by lia. now rewrite Nat.add_1_r.
  - assert (i = length rest) as -> by lia.
    rewrite lookup_app_r by (rewrite length_mids_chain; lia).
    rewrite length_mids_chain, Nat.sub_diag.
    replace (length rest + 1) with (S (length rest)) by lia.
    rewrite Nat.Div0.mod_same. cbn [lookup list_lookup].
    now rewrite last_lookup_total.
Qed.

End Basics.

(** ** Exact arithmetic: the check on real coordinates *)

Open Scope R_scope.

Lemma Rltb_true a b : Rltb a b = true <-> a < b.
Proof. unfold Rltb. destruct (Rlt_dec a b); split; intros; (discriminate || tauto). Qed.

Lemma Rltb_false a b : Rltb a b = false <-> b <= a.
Proof.
  unfold Rltb. destruct (Rlt_dec a b); split; intros;
    try discriminate; try lra; reflexivity.
Qed.

Lemma hypot_pos x y : x <> 0 \/ y <> 0 -> 0 < sqrt (x * x + y * y).
Proof. intros [Hx | Hy]; apply sqrt_lt_R0; nra. Qed.

Lemma cos_sin_atan_pos x y :
  0 < x ->
  cos (atan (y / x)) = x / sqrt (x * x + y * y) /\
  sin (atan (y / x)) = y / sqrt (x * x + y * y).
Proof.
  intros Hx. rewrite cos_atan, sin_atan.
  set (t := sqrt (1 + (y / x)²)).
  assert (Hpos : 0 < 1 + (y / x)²) by (pose proof (Rle_0_sqr (y / x)); lra).
  assert (Ht : 0 < t) by now apply sqrt_lt_R0.
  assert (Htt : t * t = 1 + (y / x)²) by (apply sqrt_sqrt; lra).
  assert (Er : sqrt (x * x + y * y) = x * t).
  { apply sqrt_lem_1; [nra | nra |].
    replace (x * t * (x * t)) with (x * x * (t * t)) by ring.
    rewrite Htt. unfold Rsqr. field. lra. }
  rewrite Er. split; field; lra.
Qed.

Lemma cos_sin_atan_neg x y :
  x < 0 ->
  cos (atan (y / x)) = - x / sqrt (x * x + y * y) /\
  sin (atan (y / x)) = - y / sqrt (x * x + y * y).
Proof.
  intros Hx.
  replace (y / x) with (- y / - x) by (field; lra).
  replace (x * x + y * y) with (- x * - x + - y * - y) by ring.
  apply cos_sin_atan_pos. lra.
Qed.

(** The cosine and the sine of the angle of a vector that is not null. *)
Lemma cos_sin_Ratan2 x y :
  x <> 0 \/ y <> 0 ->
  cos (Ratan2 y x) = x / sqrt (x * x + y * y) /\
  sin (Ratan2 y x) = y / sqrt (x * x + y * y).
Proof.
  intros Hxy. pose proof (hypot_pos x y Hxy) as Hr. unfold Ratan2.
  destruct (Rlt_dec 0 x) as [Hx | Hx]; [now apply cos_sin_atan_pos |].
  destruct (Rlt_dec x 0) as [Hx' | Hx'].
  - destruct (cos_sin_atan_neg x y Hx') as [Ec Es].
    destruct (Rle_dec 0 y).
    + rewrite neg_cos, neg_sin, Ec, Es. split; field; lra.
    + rewrite cos_minus, sin_minus, cos_PI, sin_PI, Ec, Es. split; field; lra.
  - assert (E0 : x = 0) by lra. subst x.
    assert (Hy : y <> 0) by (destruct Hxy; [lra | assumption]).
    replace (0 * 0 + y * y) with (y * y) in * by ring.
    destruct (Rlt_dec 0 y) as [Hy' | Hy'].
    + rewrite cos_PI2, sin_PI2, sqrt_square by lra. split; field; lra.
    + destruct (Rlt_dec y 0) as [Hy'' | Hy'']; [| lra].
      rewrite cos_neg, sin_neg, cos_PI2, sin_PI2.
      replace (y * y) with (- y * - y) by ring.
      rewrite sqrt_square by lra. split; field; lra.
Qed.

Lemma Ratan2_0_0 : Ratan2 0 0 = 0.
Proof.
  unfold Ratan2.
  destruct (Rlt_dec 0 0); [lra |]. reflexivity.
Qed.

(** The rotation that [get_lines_of_symmetry] applies to the working copy
    brings the vector from [pf] to [po] onto the positive x-axis. *)
Lemma rotate_by_angle (pf po q : Point R) :
  let dx := p_x po - p_x pf in
  let dy := p_y po - p_y pf in
  let r := sqrt (dx * dx + dy * dy) in
  dx <> 0 \/ dy <> 0 ->
  rotate_v (angle_v pf po) q
  = mkPoint ((p_x q * dx + p_y q * dy) / r) ((p_y q * dx - p_x q * dy) / r).
Proof.
  intros dx dy r Hd. pose proof (hypot_pos dx dy Hd) as Hr. fold r in Hr.
  unfold rotate_v, angle_v. cbn. fold dx dy.
  replace (- (Ratan2 dy dx * (180 / PI)) * (PI / 180)) with (- Ratan2 dy dx)
    by (field; apply PI_neq0).
  rewrite cos_neg, sin_neg.
  destruct (cos_sin_Ratan2 dx dy Hd) as [-> ->]. fold r.
  f_equal; field; lra.
Qed.

(** When [po] and [pf] coincide the angle is zero and nothing moves. *)
Lemma rotate_by_angle_null (pf po q : Point R) :
  p_x po - p_x pf = 0 -> p_y po - p_y pf = 0 ->
  rotate_v (angle_v pf po) q = q.
Proof.
  intros Ex Ey. unfold rotate_v, angle_v. cbn. rewrite Ex, Ey, Ratan2_0_0.
  replace (- (0 * (180 / PI)) * (PI / 180)) with 0 by (field; apply PI_neq0).
  rewrite cos_0, sin_0. destruct q as [x y]. cbn. f_equal; ring.
Qed.

Lemma close_v_iff (c1 c2 : Point R) :
  close_v c1 c2 = true
  <-> sqrt ((p_x c2 - p_x c1) * (p_x c2 - p_x c1)
            + (p_y c2 - p_y c1) * (p_y c2 - p_y c1)) < 5.
Proof. unfold close_v, distance_v. cbn. apply Rltb_true. Qed.

Lemma close_v_abs_true (a b : Point R) :
  p_x a = p_x b -> p_y a = p_y b \/ p_y a = - p_y b ->
  close_v (abs_y_v a) (abs_y_v b) = true.
Proof.
  intros Ex Ey. apply close_v_iff. cbn.
  assert (E : Rabs (p_y a) = Rabs (p_y b)).
  { destruct Ey as [-> | ->]; [reflexivity | apply Rabs_Ropp]. }
  rewrite Ex, E.
  replace ((p_x b - p_x b) * (p_x b - p_x b)
           + (Rabs (p_y b) - Rabs (p_y b)) * (Rabs (p_y b) - Rabs (p_y b)))
    with 0 by ring.
  rewrite sqrt_0. lra.
Qed.

Lemma close_v_far (a b : Point R) :
  5 <= Rabs (p_x b - p_x a) -> close_v a b = false.
Proof.
  intros Hd. unfold close_v, distance_v. cbn. apply Rltb_false.
  set (dx := p_x b - p_x a) in *. set (dy := p_y b - p_y a).
  apply Rle_trans with (Rabs dx); [exact Hd |].
  rewrite <- sqrt_Rsqr_abs. apply sqrt_le_1_alt. unfold Rsqr. nra.
Qed.

(** The coordinates of the working copy, once translated and rotated, in
    terms of the coordinates of the doubled list. *)
Lemma work_v_lookup (dbl : list (Point R)) (index half_length k : nat) :
  (k < length dbl)%nat -> (index + half_length < length dbl)%nat ->
  let pf := dbl !!! index in
  let t := translate_v (p_x pf) (p_y pf) in
  work_v dbl index half_length !!! k
  = rotate_v (angle_v (t pf) (t (dbl !!! (index + half_length)%nat))) (t (dbl !!! k)).
Proof.
  intros Hk Hi pf t. unfold work_v. fold pf. fold t.
  rewrite !(list_lookup_total_fmap _ _ _) by (rewrite ?length_map; lia).
  reflexivity.
Qed.

Lemma work_v_lookup_axis (dbl : list (Point R)) (index half_length k : nat) :
  (k < length dbl)%nat -> (index + half_length < length dbl)%nat ->
  let pf := dbl !!! index in
  let po := dbl !!! (index + half_length)%nat in
  let q := dbl !!! k in
  let dx := p_x po - p_x pf in
  let dy := p_y po - p_y pf in
  let r := sqrt (dx * dx + dy * dy) in
  dx <> 0 \/ dy <> 0 ->
  work_v dbl index half_length !!! k
  = mkPoint (((p_x q - p_x pf) * dx + (p_y q - p_y pf) * dy) / r)
            (((p_y q - p_y pf) * dx - (p_x q - p_x pf) * dy) / r).
Proof.
  intros Hk Hi pf po q dx dy r Hd.
  rewrite work_v_lookup by assumption. fold pf po q.
  rewrite rotate_by_angle; cbn.
  - replace (p_x po - p_x pf - (p_x pf - p_x pf)) with dx by (subst dx; ring).
    replace (p_y po - p_y pf - (p_y pf - p_y pf)) with dy by (subst dy; ring).
    reflexivity.
  - subst dx dy. destruct Hd; [left | right]; lra.
Qed.

Lemma work_v_lookup_null (dbl : list (Point R)) (index half_length k : nat) :
  (k < length dbl)%nat -> (index + half_length < length dbl)%nat ->
  let pf := dbl !!! index in
  let po := dbl !!! (index + half_length)%nat in
  let q := dbl !!! k in
  p_x po - p_x pf = 0 -> p_y po - p_y pf = 0 ->
  work_v dbl index half_length !!! k
  = mkPoint (p_x q - p_x pf) (p_y q - p_y pf).
Proof.
  intros Hk Hi pf po q Ex Ey.
  rewrite work_v_lookup by assumption. fold pf po q.
  rewrite rotate_by_angle_null; cbn; [reflexivity | lra | lra].
Qed.

Lemma mirror_index_lt (len index m : nat) :
  (0 < len)%nat ->
  (Z.to_nat ((Z.of_nat index - Z.of_nat m) mod Z.of_nat len) < len)%nat.
Proof.
  intros Hl.
  pose proof (Z.mod_pos_bound (Z.of_nat index - Z.of_nat m) (Z.of_nat len)). lia.
Qed.

(** A pair of the mirror loop matches when the two points have the same
    projection on the axis from [pf] to [po] and the same or opposite
    offsets from it. *)
Lemma mirror_pair_axis (dbl : list (Point R)) (index half_length m : nat) :
  (index + half_length < length dbl)%nat -> (index + m < length dbl)%nat ->
  let pf := dbl !!! index in
  let po := dbl !!! (index + half_length)%nat in
  let a := dbl !!! Z.to_nat ((Z.of_nat index - Z.of_nat m)
                               mod Z.of_nat (length dbl)) in
  let b := dbl !!! (index + m)%nat in
  let dx := p_x po - p_x pf in
  let dy := p_y po - p_y pf in
  dx <> 0 \/ dy <> 0 ->
  (p_x a - p_x pf) * dx + (p_y a - p_y pf) * dy
  = (p_x b - p_x pf) * dx + (p_y b - p_y pf) * dy ->
  (p_y a - p_y pf) * dx - (p_x a - p_x pf) * dy
  = (p_y b - p_y pf) * dx - (p_x b - p_x pf) * dy \/
  (p_y a - p_y pf) * dx - (p_x a - p_x pf) * dy
  = - ((p_y b - p_y pf) * dx - (p_x b - p_x pf) * dy) ->
  mirror_pair_v (work_v dbl index half_length) index m = true.
Proof.
  intros Hi Hm pf po a b dx dy Hd Ex Ey.
  unfold mirror_pair_v, mirror_left, mirror_right. rewrite length_work_v.
  rewrite !work_v_lookup_axis; try assumption; try lia;
    try (apply mirror_index_lt; lia).
  fold pf po a b dx dy. apply close_v_abs_true; cbn.
  - now rewrite Ex.
  - destruct Ey as [-> | ->]; [now left | right].
    unfold Rdiv. ring.
Qed.

(** When [po] coincides with [pf] nothing is rotated: the pair is compared
    as it is after the translation. *)
Lemma mirror_pair_null (dbl : list (Point R)) (index half_length m : nat) :
  (index + half_length < length dbl)%nat -> (index + m < length dbl)%nat ->
  let pf := dbl !!! index in
  let po := dbl !!! (index + half_length)%nat in
  let a := dbl !!! Z.to_nat ((Z.of_nat index - Z.of_nat m)
                               mod Z.of_nat (length dbl)) in
  let b := dbl !!! (index + m)%nat in
  p_x po - p_x pf = 0 -> p_y po - p_y pf = 0 ->
  mirror_pair_v (work_v dbl index half_length) index m
  = close_v (abs_y_v (mkPoint (p_x a - p_x pf) (p_y a - p_y pf)))
            (abs_y_v (mkPoint (p_x b - p_x pf) (p_y b - p_y pf))).
Proof.
  intros Hi Hm pf po a b Ex Ey.
  unfold mirror_pair_v, mirror_left, mirror_right. rewrite length_work_v.
  rewrite !work_v_lookup_null; try assumption; try lia;
    try (apply mirror_index_lt; lia).
  reflexivity.
Qed.

(** A pair of the mirror loop that reads the same values twice matches. *)
Lemma mirror_pair_equal (w : list (Point R)) (index m : nat) :
  w !!! Z.to_nat ((Z.of_nat index - Z.of_nat m) mod Z.of_nat (length w))
  = w !!! (index + m)%nat ->
  mirror_pair_v w index m = true.
Proof.
  intros E. unfold mirror_pair_v, mirror_left, mirror_right. rewrite E.
  apply close_v_abs_true; [reflexivity | now left].
Qed.

(** Evaluation of the mirror pairs of a polygon with literal coordinates. *)
Ltac eval_index :=
  repeat match goal with
         | |- context [Z.to_nat ?e] =>
             let v := eval vm_compute in (Z.to_nat e) in
             change (Z.to_nat e) with v
         end.
Ltac lra_cases := first [lra | left; lra | right; lra].
Ltac pair_axis :=
  apply mirror_pair_axis; [cbn; lia | cbn; lia | ..];
  eval_index; cbn; lra_cases.
Ltac pair_null :=
  rewrite mirror_pair_null; [| cbn; lia | cbn; lia | cbn; lra | cbn; lra];
  eval_index; cbn [lookup_total list_lookup_total double_v interleave
                   midpoints_v mids_chain List.last app].

Lemma midpoint_v_comm (a b : Point R) : midpoint_v a b = midpoint_v b a.
Proof. unfold midpoint_v. cbn. f_equal; lra. Qed.

(** The first candidate of a polygon of one or two points is confirmed. *)
Lemma verdict_v_degenerate (polygon : list (Point R)) :
  (1 <= length polygon <= 2)%nat -> verdict_v (double_v polygon) 0 = true.
Proof.
  intros Hn. destruct polygon as [| a [| b [| c rest]]]; simpl in Hn; try lia.
  - unfold verdict_v. change (half (length (double_v [a]))) with 1%nat.
    cbn [seq forallb]. rewrite andb_true_r.
    apply mirror_pair_equal. rewrite length_work_v. reflexivity.
  - unfold verdict_v. change (half (length (double_v [a; b]))) with 2%nat.
    cbn [seq forallb]. rewrite andb_true_r. apply andb_true_iff. split.
    + apply mirror_pair_equal. rewrite length_work_v. reflexivity.
    + apply mirror_pair_equal. rewrite length_work_v.
      change (Z.to_nat ((Z.of_nat 0 - Z.of_nat 1)
                        mod Z.of_nat (length (double_v [a; b])))) with 3%nat.
      rewrite !work_v_lookup by (cbn; lia).
      f_equal. f_equal. cbn. apply midpoint_v_comm.
Qed.

Lemma forallb_ext_in {A} (f1 f2 : A -> bool) (l : list A) :
  (forall a, In a l -> f1 a = f2 a) -> forallb f1 l = forallb f2 l.
Proof.
  induction l as [| a l IH]; intros Hext; [reflexivity |].
  cbn [forallb]. rewrite (Hext a) by now left.
  rewrite IH; [reflexivity |]. intros b Hb. apply Hext. now right.
Qed.

(** *** Rigid motions *)

Section Rigid.
Variables c s tx ty : R.
Hypothesis unit_cs : c * c + s * s = 1.

Let g := rigid_v c s tx ty.

Lemma midpoint_v_rigid (a b : Point R) :
  midpoint_v (g a) (g b) = g (midpoint_v a b).
Proof. unfold midpoint_v, g, rigid_v. cbn. f_equal; lra. Qed.

Lemma mids_chain_rigid (vals : list (Point R)) : forall a,
  mids_chain (g a) (map g vals) = map g (mids_chain a vals).
Proof.
  induction vals as [| b vals IH]; intros a; [reflexivity |].
  cbn [map mids_chain]. now rewrite midpoint_v_rigid, IH.
Qed.

Lemma last_map_rigid (vals : list (Point R)) : forall a,
  List.last (map g vals) (g a) = g (List.last vals a).
Proof.
  induction vals as [| b vals IH]; intros a; [reflexivity |].
  cbn [map]. rewrite !last_cons_default. apply IH.
Qed.

Lemma interleave_map {A B} (f : A -> B) (l1 l2 : list A) :
  interleave (map f l1) (map f l2) = map f (interleave l1 l2).
Proof.
  revert l2. induction l1 as [| a l1 IH]; intros [| b l2]; try reflexivity.
  cbn [map interleave]. now rewrite IH.
Qed.

Lemma double_v_rigid (vals : list (Point R)) :
  double_v (map g vals) = map g (double_v vals).
Proof.
  unfold double_v. rewrite <- interleave_map. f_equal.
  destruct vals as [| a vals]; [reflexivity |].
  cbn [map midpoints_v].
  now rewrite mids_chain_rigid, last_map_rigid, midpoint_v_rigid, map_app.
Qed.

(** After the translation and the rotation of [get_lines_of_symmetry] the
    working copy of the moved polygon is the working copy of the polygon,
    as long as [pf] and [po] are different points. *)
Lemma work_v_rigid (dbl : list (Point R)) (index half_length k : nat) :
  (k < length dbl)%nat -> (index + half_length < length dbl)%nat ->
  dbl !!! index <> dbl !!! (index + half_length)%nat ->
  work_v (map g dbl) index half_length !!! k = work_v dbl index half_length !!! k.
Proof.
  intros Hk Hi Hne.
  set (pf := dbl !!! index) in *. set (po := dbl !!! (index + half_length)%nat) in *.
  set (dx := p_x po - p_x pf). set (dy := p_y po - p_y pf).
  assert (Hd : dx <> 0 \/ dy <> 0).
  { destruct (Req_dec dx 0) as [Ex | Ex]; [| now left].
    destruct (Req_dec dy 0) as [Ey | Ey]; [| now right].
    exfalso. apply Hne. destruct pf as [x1 y1], po as [x2 y2].
    subst dx dy. cbn in *. f_equal; lra. }
  assert (Hsq : 0 < dx * dx + dy * dy) by (destruct Hd; nra).
  rewrite (work_v_lookup_axis dbl) by assumption. fold pf po dx dy.
  rewrite (work_v_lookup_axis (map g dbl)); rewrite ?length_map; try assumption.
  - rewrite !(list_lookup_total_fmap g) by lia. fold pf po.
    set (q := dbl !!! k). unfold g, rigid_v. cbn.
    replace (c * p_x po - s * p_y po + tx - (c * p_x pf - s * p_y pf + tx))
      with (c * dx - s * dy) by (subst dx dy; ring).
    replace (s * p_x po + c * p_y po + ty - (s * p_x pf + c * p_y pf + ty))
      with (s * dx + c * dy) by (subst dx dy; ring).
    replace ((c * dx - s * dy) * (c * dx - s * dy)
             + (s * dx + c * dy) * (s * dx + c * dy))
      with ((c * c + s * s) * (dx * dx + dy * dy)) by ring.
    rewrite unit_cs, Rmult_1_l. f_equal; f_equal.
    + transitivity ((c * c + s * s)
                    * ((p_x q - p_x pf) * dx + (p_y q - p_y pf) * dy));
        [ring | rewrite unit_cs; ring].
    + transitivity ((c * c + s * s)
                    * ((p_y q - p_y pf) * dx - (p_x q - p_x pf) * dy));
        [ring | rewrite unit_cs; ring].
  - rewrite !(list_lookup_total_fmap g) by lia. fold pf po.
    unfold g, rigid_v. cbn.
    replace (c * p_x po - s * p_y po + tx - (c * p_x pf - s * p_y pf + tx))
      with (c * dx - s * dy) by (subst dx dy; ring).
    replace (s * p_x po + c * p_y po + ty - (s * p_x pf + c * p_y pf + ty))
      with (s * dx + c * dy) by (subst dx dy; ring).
    destruct (Req_dec (c * dx - s * dy) 0) as [E1 | E1]; [| now left].
    destruct (Req_dec (s * dx + c * dy) 0) as [E2 | E2]; [| now right].
    exfalso.
    assert (E : (c * c + s * s) * (dx * dx + dy * dy)
                = (c * dx - s * dy) * (c * dx - s * dy)
                  + (s * dx + c * dy) * (s * dx + c * dy)) by ring.
    rewrite E1, E2, unit_cs in E. lra.
Qed.

Lemma verdict_v_rigid (dbl : list (Point R)) (index : nat) :
  length dbl = (2 * half (length dbl))%nat -> (index < half (length dbl))%nat ->
  dbl !!! index <> dbl !!! (index + half (length dbl))%nat ->
  verdict_v (map g dbl) index = verdict_v dbl index.
Proof.
  intros El Hi Hne. unfold verdict_v. rewrite length_map.
  set (h := half (length dbl)) in *.
  apply forallb_ext_in. intros m Hm. apply in_seq in Hm.
  unfold mirror_pair_v, mirror_left, mirror_right.
  rewrite !length_work_v, length_map.
  rewrite !work_v_rigid; try assumption; try lia;
    try (apply mirror_index_lt; lia).
  reflexivity.
Qed.

End Rigid.

Close Scope R_scope.

(** * The calls with [OverflowError] *)

Section Refinement.
Context {F : Type} `{Float F} `{Overflow F}.

Lemma refines_refl {A} (c : M F A) : refines c c.
Proof. intros s. now left. Qed.

Lemma refines_bind {A B} (c c0 : M F A) (k k0 : A -> M F B) :
  refines c c0 -> (forall a, refines (k a) (k0 a)) ->
  refines (bind c k) (bind c0 k0).
Proof.
  intros Hc Hk s. unfold bind.
  destruct (Hc s) as [-> | [-> Hv]]; [| now right].
  destruct (c0 s) as [a s' | e]; [apply Hk | now left].
Qed.

Lemma refines_for_fold {A S} (l : list A) (body body0 : A -> S -> M F S) (acc : S) :
  (forall a acc, refines (body a acc) (body0 a acc)) ->
  refines (for_fold l body acc) (for_fold l body0 acc).
Proof.
  intros Hb. revert acc.
  induction l as [| a l IH]; intros acc; cbn [for_fold]; [apply refines_refl |].
  apply refines_bind; [apply Hb | exact IH].
Qed.

(** When no square overflows the two versions agree. *)
Lemma refines_no_overflow {A} (c c0 : M F A) (s : state F) :
  (forall v, pow2_overflows v = false) -> refines c c0 -> c s = c0 s.
Proof.
  intros Hno Hc. destruct (Hc s) as [E | [_ [v Hv]]]; [exact E |].
  rewrite Hno in Hv. discriminate.
Qed.

Lemma checked_get_distance s p1 p2 c1 c2 :
  heap s !! p1 = Some c1 -> heap s !! p2 = Some c2 ->
  Checked._get_distance p1 p2 s
  = if pow2_overflows (f_sub (p_x c2) (p_x c1))
       || pow2_overflows (f_sub (p_y c2) (p_y c1))
    then Raise OverflowError
    else Ok (distance_v c1 c2) s.
Proof.
  intros H1 H2.
  unfold Checked._get_distance, Checked.pow2, bind, get_x, get_y, raise, ret.
  rewrite H2. cbn beta iota. rewrite H1. cbn beta iota.
  destruct (pow2_overflows (f_sub (p_x c2) (p_x c1))); [reflexivity |].
  cbn beta iota. rewrite H2. cbn beta iota. rewrite H1. cbn beta iota.
  now destruct (pow2_overflows (f_sub (p_y c2) (p_y c1))).
Qed.

Lemma checked_points_really_close s p1 p2 c1 c2 :
  heap s !! p1 = Some c1 -> heap s !! p2 = Some c2 ->
  Checked._points_really_close p1 p2 s
  = if pow2_overflows (f_sub (p_x c2) (p_x c1))
       || pow2_overflows (f_sub (p_y c2) (p_y c1))
    then Raise OverflowError
    else Ok (close_v c1 c2) s.
Proof.
  intros H1 H2. unfold Checked._points_really_close, bind.
  rewrite (checked_get_distance s p1 p2 c1 c2 H1 H2).
  now destruct (_ || _).
Qed.

Lemma refines_get_distance p1 p2 :
  refines (Checked._get_distance p1 p2) (_get_distance p1 p2).
Proof.
  intros s.
  destruct (heap s !! p2) as [c2 |] eqn:E2.
  2: { left. unfold Checked._get_distance, _get_distance, bind, get_x.
       now rewrite E2. }
  destruct (heap s !! p1) as [c1 |] eqn:E1.
  2: { left. unfold Checked._get_distance, _get_distance, bind, get_x.
       rewrite E2. cbn beta iota. now rewrite E1. }
  rewrite (checked_get_distance s p1 p2 c1 c2 E1 E2),
    (_get_distance_Ok s p1 p2 c1 c2 E1 E2).
  destruct (pow2_overflows (f_sub (p_x c2) (p_x c1))) eqn:Ex; [right; eauto |].
  destruct (pow2_overflows (f_sub (p_y c2) (p_y c1))) eqn:Ey; [right; eauto |].
  now left.
Qed.

Lemma refines_mirror_check points_copy index half_length :
  refines (Checked.mirror_check points_copy index half_length)
          (mirror_check points_copy index half_length).
Proof.
  apply refines_for_fold. intros mirror_index symmetrical.
  unfold Checked.mirror_body, mirror_body.
  repeat (apply refines_bind; [apply refines_refl | intros ?]).
  apply refines_bind; [| intros ?; apply refines_refl].
  apply refines_bind; [apply refines_get_distance | intros ?; apply refines_refl].
Qed.

Lemma refines_candidate self points half_length index symmetries :
  refines (Checked.candidate self points half_length index symmetries)
          (candidate self points half_length index symmetries).
Proof.
  apply refines_bind; [| intros ?; apply refines_refl].
  unfold Checked.check_candidate, check_candidate.
  repeat (apply refines_bind; [apply refines_refl | intros ?]).
  apply refines_mirror_check.
Qed.

(** [get_lines_of_symmetry] with [OverflowError] does what the version
    without it does, or raises [OverflowError] at a square that overflows. *)
Lemma checked_refines self :
  refines (Checked.get_lines_of_symmetry self) (get_lines_of_symmetry self).
Proof.
  apply refines_bind; [apply refines_refl | intros points].
  apply refines_for_fold. intros index symmetries. apply refines_candidate.
Qed.

(** ** When [OverflowError] is raised *)

Lemma checked_mirror_body pc vals index m sym s :
  points_to (heap s) pc vals ->
  index + m < length pc -> m <= index + length pc ->
  Checked.mirror_body pc index m sym s
  = if pair_overflows vals index m then Raise OverflowError
    else mirror_body pc index m sym s.
Proof.
  intros Hp Hr Hl.
  rewrite (mirror_body_Ok pc vals index m sym s Hp Hr Hl).
  assert (El : length vals = length pc) by (symmetry; eapply Forall2_length, Hp).
  assert (Hk : Z.to_nat ((Z.of_nat index - Z.of_nat m) mod Z.of_nat (length pc))
               < length pc).
  { pose proof (Z.mod_pos_bound (Z.of_nat index - Z.of_nat m)
                  (Z.of_nat (length pc))). lia. }
  destruct (points_to_lookup _ _ _ _ Hp Hk) as (a1 & Ha1 & Hc1).
  destruct (points_to_lookup _ _ _ _ Hp Hr) as (a2 & Ha2 & Hc2).
  unfold Checked.mirror_body.
  assert (E1 : py_index pc (Z.of_nat index - Z.of_nat m) = Some a1).
  { rewrite py_index_sub by lia. exact Ha1. }
  mstep (getitem_Ok _ _ _ s E1).
  assert (E2 : py_index pc (Z.of_nat index + Z.of_nat m) = Some a2).
  { rewrite <- Nat2Z.inj_add, py_index_nat. exact Ha2. }
  mstep (getitem_Ok _ _ _ s E2).
  mstep (get_x_Ok _ _ _ Hc1). mstep (get_y_Ok _ _ _ Hc1).
  unfold new_Point at 1. unfold bind at 1.
  set (s1 := mkState _ _).
  assert (Hc2' : heap s1 !! a2 = Some (vals !!! (index + m)))
    by now apply lookup_app_l_Some.
  mstep (get_x_Ok _ _ _ Hc2'). mstep (get_y_Ok _ _ _ Hc2').
  unfold new_Point at 1. unfold bind at 1.
  set (s2 := mkState _ _).
  assert (Hn1 : heap s2 !! length (heap s) = Some (mirror_left vals index m)).
  { subst s2 s1. cbn [heap]. rewrite <- app_assoc.
    rewrite lookup_app_r by lia. rewrite Nat.sub_diag.
    unfold mirror_left, abs_y_v. now rewrite El. }
  assert (Hn2 : heap s2 !! length (heap s1) = Some (mirror_right vals index m)).
  { subst s2. cbn [heap]. rewrite lookup_app_r by lia. now rewrite Nat.sub_diag. }
  unfold bind at 1.
  rewrite (checked_points_really_close s2 _ _ _ _ Hn1 Hn2).
  fold (pair_overflows vals index m).
  destruct (pair_overflows vals index m); [reflexivity |].
  unfold ret, mirror_pair_v. subst s2 s1. cbn [heap log].
  unfold mirror_left, mirror_right, abs_y_v.
  now rewrite El, <- app_assoc.
Qed.

Lemma checked_mirror_loop pc vals index ms : forall sym s,
  points_to (heap s) pc vals ->
  Forall (fun m => index + m < length pc /\ m <= index + length pc) ms ->
  for_fold ms (Checked.mirror_body pc index) sym s
  = if existsb (pair_overflows vals index) ms then Raise OverflowError
    else for_fold ms (mirror_body pc index) sym s.
Proof.
  induction ms as [| m ms IH]; intros sym s Hp Hms; [reflexivity |].
  apply Forall_cons in Hms as [[Hr Hl] Hms]. cbn [for_fold existsb].
  unfold bind. rewrite (checked_mirror_body pc vals index m sym s Hp Hr Hl).
  destruct (pair_overflows vals index m); [reflexivity |].
  rewrite (mirror_body_Ok pc vals index m sym s Hp Hr Hl). cbn [orb].
  apply IH; [apply points_to_app, Hp | exact Hms].
Qed.

Lemma checked_check_candidate_with_copy self points half_length index s c s1 vals3 :
  deepcopy points
    (mkState (heap s) (log s ++ ev (_original_callback self) (Original index points)))
  = Ok c s1 ->
  valid (heap s1) c -> length c = 2 * half_length -> index < half_length ->
  points_to (work_heap (heap s1) c index half_length) c vals3 ->
  Checked.check_candidate self points half_length index s
  = if existsb (pair_overflows vals3 index) (seq 0 half_length)
    then Raise OverflowError
    else check_candidate self points half_length index s.
Proof.
  intros Ecopy Hv El Hi Hp3.
  rewrite (check_candidate_with_copy self points half_length index s c s1 vals3
             Ecopy Hv El Hi Hp3).
  unfold Checked.check_candidate.
  mstep (notify_Ok (_original_callback self) (Original index points) s).
  mstep Ecopy.
  destruct (valid_lookup_total _ _ index Hv ltac:(lia)) as [Epf Hpf].
  mstep (getitem_nat_Ok _ _ _ s1 Epf).
  mstep (get_x_Ok _ _ _ Hpf). mstep (get_y_Ok _ _ _ Hpf).
  mstep (_translate_shape_Ok (p_x (heap s1 !!! (c !!! index)))
           (p_y (heap s1 !!! (c !!! index))) c s1 Hv).
  set (h2 := alter_all _ c (heap s1)).
  assert (Hv2 : valid h2 c).
  { eapply valid_same_length; [| exact Hv]. subst h2.
    now rewrite length_alter_all. }
  mstep (notify_Ok (_translate_callback self) (Translated index c)
           (mkState h2 (log s1))).
  cbn [heap log].
  destruct (valid_lookup_total _ _ (index + half_length) Hv2 ltac:(lia)) as [Epo Hpo].
  destruct (valid_lookup_total _ _ index Hv2 ltac:(lia)) as [_ Hpf2].
  set (s2 := mkState h2 _).
  mstep (getitem_nat_Ok _ _ _ s2 Epo).
  mstep (_get_angle_Ok s2 _ _ _ _ Hpf2 Hpo).
  mstep (rotate_all_Ok (angle_v (h2 !!! (c !!! index))
                                (h2 !!! (c !!! (index + half_length)))) c s2 Hv2).
  fold (work_heap (heap s1) c index half_length).
  set (h3 := work_heap _ _ _ _) in *.
  mstep (notify_Ok (_rotate_callback self) (Rotated index c)
           (mkState h3 (log s2))).
  unfold Checked.mirror_check.
  rewrite (checked_mirror_loop c vals3 index); [| exact Hp3 |].
  2: { apply Forall_forall. intros m Hm. apply elem_of_seq in Hm. lia. }
  destruct (existsb _ _); [reflexivity |].
  fold (mirror_check c index half_length).
  rewrite (mirror_check_Ok _ vals3); [| exact Hp3 | exact El | exact Hi].
  subst s2. cbn [heap log]. now rewrite <- app_assoc.
Qed.

Lemma checked_check_candidate_NoDup self points dvals half_length index s :
  NoDup points -> points_to (heap s) points dvals ->
  length points = 2 * half_length -> index < half_length ->
  Checked.check_candidate self points half_length index s
  = if candidate_overflows dvals index then Raise OverflowError
    else check_candidate self points half_length index s.
Proof.
  intros Hnd Hp El Hi.
  assert (Ed : length dvals = length points) by (symmetry; eapply Forall2_length, Hp).
  set (s0 := mkState (heap s)
               (log s ++ ev (_original_callback self) (Original index points))).
  assert (Ecopy : deepcopy points s0
                  = Ok (seq (length (heap s)) (length points))
                       (mkState (heap s ++ dvals) (log s0))).
  { unfold deepcopy. apply (deepcopy_from_NoDup points ∅ s0 dvals Hp Hnd).
    intros a _. apply lookup_empty. }
  set (c := seq _ _) in Ecopy. set (s1 := mkState (heap s ++ dvals) _) in Ecopy.
  assert (Ew : work_heap (heap s1) c index half_length
               = heap s ++ work_v dvals index half_length).
  { subst c s1. cbn [heap]. rewrite <- Ed. apply work_heap_seq. lia. }
  assert (Hv1 : valid (heap s1) c).
  { subst c s1. cbn [heap]. rewrite <- Ed. apply valid_seq_app. }
  assert (Hp3 : points_to (work_heap (heap s1) c index half_length) c
                  (work_v dvals index half_length)).
  { rewrite Ew. subst c. rewrite <- Ed, <- (length_work_v dvals index half_length).
    apply points_to_seq. }
  rewrite (checked_check_candidate_with_copy self points half_length index s c s1 _
             Ecopy Hv1 ltac:(subst c; rewrite length_seq; lia) Hi Hp3).
  unfold candidate_overflows. now rewrite Ed, El, half_double.
Qed.

Lemma checked_candidate_NoDup self points dvals half_length index syms s :
  NoDup points -> points_to (heap s) points dvals ->
  length points = 2 * half_length -> index < half_length ->
  Checked.candidate self points half_length index syms s
  = if candidate_overflows dvals index then Raise OverflowError
    else candidate self points half_length index syms s.
Proof.
  intros Hnd Hp El Hi. unfold Checked.candidate, candidate, bind.
  rewrite (checked_check_candidate_NoDup self points dvals half_length index s
             Hnd Hp El Hi).
  now destruct (candidate_overflows dvals index).
Qed.

Lemma checked_main_loop self points dvals half_length indices : forall s syms,
  NoDup points -> points_to (heap s) points dvals ->
  length points = 2 * half_length ->
  Forall (fun i => i < half_length) indices ->
  for_fold indices (Checked.candidate self points half_length) syms s
  = if existsb (candidate_overflows dvals) indices then Raise OverflowError
    else for_fold indices (candidate self points half_length) syms s.
Proof.
  induction indices as [| i indices IH]; intros s syms Hnd Hp El Hall;
    [reflexivity |].
  apply Forall_cons in Hall as [Hi Hall]. cbn [for_fold existsb].
  unfold bind.
  rewrite (checked_candidate_NoDup self points dvals half_length i syms s
             Hnd Hp El Hi).
  destruct (candidate_overflows dvals i); [reflexivity |]. cbn [orb].
  destruct (check_candidate_NoDup self points dvals half_length i s Hnd Hp El Hi)
    as (extra & evs & E).
  rewrite (candidate_Ok _ _ _ _ _ _ _ El Hi E syms).
  apply IH; try assumption. cbn [heap]. apply points_to_app, Hp.
Qed.

(** On a polygon of distinct [Point] objects [get_lines_of_symmetry] raises
    [OverflowError] exactly when a round of the mirror loop of some
    candidate meets a square that overflows; otherwise it does what the
    version without the exception does. *)
Lemma checked_get_lines_of_symmetry_NoDup self s vals :
  NoDup (_points self) -> points_to (heap s) (_points self) vals ->
  Checked.get_lines_of_symmetry self s
  = if overflows vals then Raise OverflowError
    else get_lines_of_symmetry self s.
Proof.
  intros Hnd Hp.
  destruct (get_lines_of_symmetry_spec self s vals Hp) as (Ed & El & _ & _).
  assert (En : length vals = length (_points self))
    by (symmetry; eapply Forall2_length, Hp).
  unfold Checked.get_lines_of_symmetry, get_lines_of_symmetry, bind.
  rewrite Ed, El, half_double.
  unfold overflows. rewrite En.
  apply checked_main_loop.
  - apply NoDup_interleave; [exact Hnd | apply NoDup_seq |].
    intros a Ha Hs. apply elem_of_seq in Hs.
    pose proof (points_to_valid _ _ _ Hp) as Hv.
    unfold valid in Hv. rewrite Forall_forall in Hv. specialize (Hv a Ha). lia.
  - cbn [heap]. unfold double_v. apply points_to_interleave.
    + apply points_to_app, Hp.
    + rewrite <- En, <- (length_midpoints_v vals). apply points_to_seq.
  - exact El.
  - apply Forall_forall. intros i Hi. apply elem_of_seq in Hi. lia.
Qed.

Lemma checked_detect_spec (polygon : list (Point F)) :
  Checked.detect polygon
  = if overflows polygon then Raise OverflowError else detect polygon.
Proof.
  unfold Checked.detect, detect.
  apply checked_get_lines_of_symmetry_NoDup;
    [apply NoDup_seq | apply (points_to_seq polygon [])].
Qed.

End Refinement.

(** * The properties of [get_lines_of_symmetry] *)

Section Properties.
Context {F : Type} `{Float F} `{Overflow F}.

(** C1 (amended).  On an empty list of points [get_lines_of_symmetry] raises
    nothing: it returns the empty list of axes, calls no callback and
    changes nothing in the store, whatever callbacks are installed. *)
Theorem empty_polygon_no_axes (cb1 cb2 cb3 cb4 : bool) (s : state F) :
  get_lines_of_symmetry (mkSymmetry [] cb1 cb2 cb3 cb4) s = Ok [] s.
Proof.
  unfold get_lines_of_symmetry. cbn [_points].
  assert (Ed : _double_points [] s = Ok [] s) by reflexivity.
  mstep Ed. reflexivity.
Qed.

(** C3.  For a list of [n] points, [_double_points] returns a list of length
    [2 * n]; the entry [2 * i] is the point [i] of the input (the same
    object), the entry [2 * i + 1] is a new object whose coordinates are
    the midpoint of the points [i] and [i + 1], and of the last and the
    first point for [i = n - 1]; the objects of the input are unchanged. *)
Theorem double_points_layout (points : list addr) (vals : list (Point F))
    (s : state F) :
  points_to (heap s) points vals ->
  exists doubled s',
    _double_points points s = Ok doubled s' /\
    length doubled = 2 * length points /\
    (forall i, i < length points ->
       doubled !! (2 * i) = points !! i /\
       exists m, doubled !! (2 * i + 1) = Some m /\
                 length (heap s) <= m /\
                 heap s' !! m
                 = Some (midpoint_v (vals !!! i)
                           (vals !!! ((i + 1) mod length points)))) /\
    (forall a c, heap s !! a = Some c -> heap s' !! a = Some c).
Proof.
  intros Hp.
  assert (En : length vals = length points) by (symmetry; eapply Forall2_length, Hp).
  eexists _, _. split; [apply (_double_points_Ok _ _ _ Hp) |].
  split; [apply length_interleave; now rewrite length_seq |].
  split.
  - intros i Hi. split.
    + apply lookup_interleave_even. now rewrite length_seq.
    + exists (length (heap s) + i). split; [| split].
      * rewrite lookup_interleave_odd by now rewrite length_seq.
        now apply lookup_seq_lt.
      * lia.
      * cbn [heap]. rewrite lookup_app_r by lia.
        replace (length (heap s) + i - length (heap s)) with i by lia.
        rewrite <- En. apply lookup_midpoints_v. lia.
  - intros a c Ha. cbn [heap]. now apply lookup_app_l_Some.
Qed.




(** C10 (amended).  For every list of points, the empty one included,
    [get_lines_of_symmetry] raises no [IndexError]: it returns a list of
    axes, or it raises [OverflowError], which takes a value whose square
    overflows.  On distinct [Point] objects it raises [OverflowError]
    exactly when, in a round of the mirror loop of some candidate, the
    square of the difference of the abscissas or of the ordinates of the
    two points compared overflows, and it returns a list of axes otherwise.
    For [index] and [mirror_index] below [half_length] the indices
    [index + half_length] and [index + mirror_index] are at most
    [length - 1] and [index - mirror_index] is at least [- length]. *)
Theorem no_index_error (self : Symmetry) (s : state F) :
  valid (heap s) (_points self) ->
  ((exists axes s', Checked.get_lines_of_symmetry self s = Ok axes s') \/
   (Checked.get_lines_of_symmetry self s = Raise OverflowError /\
    exists v, pow2_overflows v = true)) /\
  Checked.get_lines_of_symmetry self s <> Raise IndexError /\
  (forall vals,
     NoDup (_points self) -> points_to (heap s) (_points self) vals ->
     if overflows vals
     then Checked.get_lines_of_symmetry self s = Raise OverflowError
     else exists axes s', Checked.get_lines_of_symmetry self s = Ok axes s') /\
  (forall length index mirror_index : nat,
     index < half length -> mirror_index < half length ->
     (Z.of_nat index + Z.of_nat (half length) <= Z.of_nat length - 1)%Z /\
     (Z.of_nat index + Z.of_nat mirror_index <= Z.of_nat length - 1)%Z /\
     (- Z.of_nat length <= Z.of_nat index - Z.of_nat mirror_index)%Z).
Proof.
  intros Hv.
  destruct (valid_points_to _ _ Hv) as [vals Hp].
  destruct (get_lines_of_symmetry_spec self s vals Hp)
    as (_ & _ & _ & extra & evs & E & _).
  split; [| split; [| split]].
  - destruct (checked_refines self s) as [Ec | Ec]; [left | now right].
    rewrite Ec, E. eauto.
  - destruct (checked_refines self s) as [Ec | [Ec _]]; rewrite Ec;
      [rewrite E |]; discriminate.
  - intros vals' Hnd Hp'.
    rewrite (checked_get_lines_of_symmetry_NoDup self s vals' Hnd Hp').
    destruct (overflows vals'); [reflexivity |]. rewrite E. eauto.
  - intros len index mirror_index Hi Hm. unfold half in *.
    pose proof (Nat.Div0.mul_div_le len 2). lia.
Qed.

End Properties.

(** * The properties that depend on the arithmetic, in exact arithmetic *)

Open Scope R_scope.

(** C1 (counterexample).  On the empty polygon the call returns normally,
    with no axis: it raises nothing. *)
Lemma empty_polygon_returns_normally :
  detect (F := R) [] = Ok [] (mkState [] []) /\
  forall e, detect (F := R) [] <> Raise e.
Proof.
  assert (E : detect (F := R) [] = Ok [] (mkState [] [])) by reflexivity.
  split; [exact E |]. intros e. rewrite E. discriminate.
Qed.










(** C10 (counterexample).  On the two points [(0, 0)] and [(1e200, 0)] the
    call raises [OverflowError]: the candidate [1] compares, in its second
    round, two points whose abscissas differ by [1e200], and [1e200 ** 2]
    overflows. *)
Lemma far_apart_points_overflow :
  let polygon := [mkPoint 0 0; mkPoint 1e200 0]%float in
  Forall (fun c => PrimFloat.is_finite (p_x c) && PrimFloat.is_finite (p_y c) = true)
         polygon /\
  pow2_overflows 1e200%float = true /\
  forall libm, detect_64 libm polygon = Raise OverflowError.
Proof.
  intros polygon. split; [repeat constructor |]. split; [reflexivity |].
  intros libm. vm_compute. reflexivity.
Qed.

Lemma sqrt_0_sq (d : R) : 0 <= d -> sqrt ((0 - 0) * (0 - 0) + (d - 0) * (d - 0)) = d.
Proof.
  intros Hd. replace ((0 - 0) * (0 - 0) + (d - 0) * (d - 0)) with (d * d) by ring.
  now apply sqrt_square.
Qed.

(** The examples of the tolerance: [(0, 0)] matches [(0, 4.99)] and matches
    neither [(0, 5)] nor [(0, 5.01)]. *)
Lemma close_enough_examples :
  close_v (mkPoint 0 0) (mkPoint 0 4.99) = true /\
  close_v (mkPoint 0 0) (mkPoint 0 5) = false /\
  close_v (mkPoint 0 0) (mkPoint 0 5.01) = false.
Proof.
  unfold close_v, distance_v. cbn.
  rewrite !sqrt_0_sq by lra.
  rewrite Rltb_true, !Rltb_false. unfold CLOSE_ENOUGH. lra.
Qed.

(** C7.  The square has four axes: the candidates [0] and [2] give the axes
    through opposite vertices (the objects [0], [2] and [1], [3]), the
    candidates [1] and [3] the axes through the midpoints of opposite edges
    (the objects [4], [6] and [5], [7]). *)
Theorem square_has_four_axes :
  exists s',
    detect square
    = Ok [(0, 2); (4, 6); (1, 3); (5, 7)]%nat s'.
Proof.
  destruct (detect_spec square) as [s' E]. exists s'. rewrite E.
  assert (Hv : forall i, In i [0; 1; 2; 3]%nat -> verdict_v (double_v square) i = true).
  { intros i Hi. unfold verdict_v.
    change (half (length (double_v square))) with 4%nat.
    cbn [seq forallb]. rewrite !andb_true_iff.
    cbn [In] in Hi. destruct Hi as [<- | [<- | [<- | [<- | []]]]];
      repeat split; pair_axis. }
  unfold symmetric_indices. cbn [length square seq List.filter]. fold square.
  rewrite !Hv by (cbn [In]; tauto).
  reflexivity.
Qed.

(** The segment [upright_segment] turned by a quarter turn. *)
Lemma quarter_turn_segment :
  map (rigid_v 0 (-1) 0 0) upright_segment
  = [mkPoint (0 * 0 - -1 * 0 + 0) (-1 * 0 + 0 * 0 + 0);
     mkPoint (0 * 0 - -1 * 10 + 0) (-1 * 0 + 0 * 10 + 0)].
Proof. reflexivity. Qed.

Lemma verdict_upright_segment_1 : verdict_v (double_v upright_segment) 1 = true.
Proof.
  unfold verdict_v. change (half (length (double_v upright_segment))) with 2%nat.
  cbn [seq forallb]. rewrite andb_true_r. apply andb_true_iff. split.
  - apply mirror_pair_equal. rewrite length_work_v. reflexivity.
  - pair_null. apply close_v_abs_true; cbn; lra_cases.
Qed.

Lemma verdict_lying_segment_1 :
  verdict_v (double_v (map (rigid_v 0 (-1) 0 0) upright_segment)) 1 = false.
Proof.
  rewrite quarter_turn_segment. unfold verdict_v.
  match goal with |- context [half (length ?l)] =>
    change (half (length l)) with 2%nat end.
  cbn [seq forallb]. rewrite andb_true_r. apply andb_false_iff. right.
  pair_null. apply close_v_far. cbn.
  eapply Rle_trans; [| apply Rle_abs]. lra.
Qed.

(** C8 (counterexample).  The segment from [(0, 0)] to [(0, 10)] has two
    axes; turned by a quarter turn it has one. *)
Lemma rotation_changes_count :
  0 * 0 + -1 * -1 = 1 /\
  axis_count (detect upright_segment) = Some 2%nat /\
  axis_count (detect (map (rigid_v 0 (-1) 0 0) upright_segment)) = Some 1%nat.
Proof.
  split; [lra |]. split.
  - destruct (detect_spec upright_segment) as [s' E]. rewrite E.
    unfold symmetric_indices. cbn [length upright_segment seq List.filter].
    fold upright_segment.
    rewrite (verdict_v_degenerate upright_segment) by (cbn; lia).
    rewrite verdict_upright_segment_1. reflexivity.
  - destruct (detect_spec (map (rigid_v 0 (-1) 0 0) upright_segment)) as [s' E].
    rewrite E. unfold symmetric_indices.
    rewrite length_map. cbn [length upright_segment seq List.filter].
    fold upright_segment.
    rewrite (verdict_v_degenerate (map (rigid_v 0 (-1) 0 0) upright_segment))
      by (cbn; lia).
    rewrite verdict_lying_segment_1. reflexivity.
Qed.

Lemma length_double_v (vals : list (Point R)) :
  length (double_v vals) = (2 * length vals)%nat.
Proof. unfold double_v. apply length_interleave. now rewrite length_midpoints_v. Qed.

(** C8 (amended).  For a polygon, given as distinct objects, in which no
    point of the doubled list coincides with its opposite point, a rotation
    followed by a translation of all the points leaves the confirmed
    candidates unchanged: the same axes (as pairs of objects) are returned,
    and so the number of axes is the same. *)
Theorem rigid_motion_same_axes (polygon : list (Point R)) (c s tx ty : R) :
  c * c + s * s = 1 ->
  (forall i, (i < length polygon)%nat ->
     double_v polygon !!! i <> double_v polygon !!! (i + length polygon)%nat) ->
  exists axes s1 s2,
    detect polygon = Ok axes s1 /\
    detect (map (rigid_v c s tx ty) polygon) = Ok axes s2 /\
    axis_count (detect (map (rigid_v c s tx ty) polygon))
    = axis_count (detect polygon).
Proof.
  intros Hcs Hne.
  destruct (detect_spec polygon) as [s1 E1].
  destruct (detect_spec (map (rigid_v c s tx ty) polygon)) as [s2 E2].
  rewrite length_map in E2.
  assert (Ei : symmetric_indices (map (rigid_v c s tx ty) polygon)
               = symmetric_indices polygon).
  { unfold symmetric_indices. rewrite length_map, (double_v_rigid c s tx ty).
    apply List.filter_ext_in. intros i Hi. apply in_seq in Hi.
    pose proof (length_double_v polygon) as El.
    apply (verdict_v_rigid c s tx ty Hcs); rewrite El, half_double.
    - reflexivity.
    - lia.
    - apply Hne. lia. }
  rewrite Ei in E2.
  eexists _, s1, s2. split; [exact E1 |]. split; [exact E2 |].
  now rewrite E1, E2.
Qed.

(** ** The theorems at concrete inputs *)


Lemma double_points_layout_witness :
  points_to upright_segment [0; 1]%nat upright_segment /\
  exists doubled s',
    _double_points [0; 1]%nat (mkState upright_segment []) = Ok doubled s' /\
    length doubled = 4%nat.
Proof.
  assert (Hp : points_to upright_segment [0; 1]%nat upright_segment)
    by (repeat constructor).
  split; [exact Hp |].
  destruct (double_points_layout [0; 1]%nat upright_segment
              (mkState upright_segment []) Hp) as (d & s' & E & El & _).
  exists d, s'. split; [exact E | exact El].
Defined.




Lemma rigid_motion_same_axes_witness :
  0 * 0 + 1 * 1 = 1 /\
  (forall i, (i < length square)%nat ->
     double_v square !!! i <> double_v square !!! (i + length square)%nat) /\
  axis_count (detect (map (rigid_v 0 1 0 0) square)) = axis_count (detect square).
Proof.
  assert (Hcs : 0 * 0 + 1 * 1 = 1) by lra.
  assert (Hne : forall i, (i < length square)%nat ->
            double_v square !!! i <> double_v square !!! (i + length square)%nat).
  { intros i Hi. cbn [length square] in Hi.
    destruct i as [| [| [| [| i]]]]; try lia;
      cbn; intros E; injection E; intros; lra. }
  split; [exact Hcs |]. split; [exact Hne |].
  destruct (rigid_motion_same_axes square 0 1 0 0 Hcs Hne)
    as (axes & s1 & s2 & _ & _ & E).
  exact E.
Defined.


(** On Python's floats, for the segment from [(0, 0)] to [(10, 0)]. *)
Lemma no_index_error_witness :
  let self := mkSymmetry [0; 1]%nat true true true true in
  let s := mkState [mkPoint 0%float 0%float; mkPoint 10%float 0%float] [] in
  valid (heap s) (_points self) /\
  forall libm, exists axes s',
    @Checked.get_lines_of_symmetry float (Binary64 libm) _ self s = Ok axes s'.
Proof.
  intros self s.
  assert (Hv : valid (heap s) (_points self)) by (repeat constructor).
  split; [exact Hv |]. intros libm.
  destruct (no_index_error (H := Binary64 libm) self s Hv) as (_ & _ & Hex & _).
  assert (Hnd : NoDup (_points self)) by (apply (NoDup_seq 0 2)).
  assert (Hp : points_to (heap s) (_points self) (heap s)) by (repeat constructor).
  specialize (Hex (heap s) Hnd Hp).
  assert (Eo : overflows (H := Binary64 libm) (heap s) = false)
    by (vm_compute; reflexivity).
  rewrite Eo in Hex. exact Hex.
Defined.

Close Scope R_scope.

(** * Further properties of the two modules *)

Section MoreBasics.
Context {F : Type} `{Float F}.
Implicit Types (s : state F) (h : list (Point F)) (l : list addr).

Lemma option_fmap_iter_succ (f : Point F -> Point F) (k : nat) (o : option (Point F)) :
  Nat.iter k f <$> (f <$> o) = Nat.iter (S k) f <$> o.
Proof.
  destruct o as [c |]; [| reflexivity]. cbn [fmap option_fmap option_map].
  f_equal. symmetry. apply Nat.iter_succ_r.
Qed.

(** A loop that updates the object it is given updates an object once for
    each of its occurrences in the list. *)
Lemma lookup_alter_all_count (f : Point F -> Point F) l : forall h a,
  alter_all f l h !! a = Nat.iter (count_occ Nat.eq_dec l a) f <$> h !! a.
Proof.
  induction l as [| b l IH]; intros h a.
  - cbn. now destruct (h !! a).
  - cbn [alter_all count_occ]. rewrite IH.
    destruct (Nat.eq_dec b a) as [-> | Hne].
    + rewrite list_lookup_alter_eq. apply option_fmap_iter_succ.
    + now rewrite list_lookup_alter_ne.
Qed.

Lemma offset_cell_Ok (x y : Z) a s :
  a < length (heap s) ->
  (vx <- get_x a ;; set_x a (f_add vx (f_of_int x)) ;;
   vy <- get_y a ;; set_y a (f_add vy (f_of_int y))) s
  = Ok tt (mkState (alter (offset_v x y) a (heap s)) (log s)).
Proof.
  intros Ha. destruct (lookup_lt_is_Some_2 _ _ Ha) as [c Hc].
  rewrite (bind_Ok _ _ _ _ _ (get_x_Ok _ _ _ Hc)).
  rewrite (bind_Ok _ _ _ _ _ (set_x_Ok _ _ _ _ Hc)).
  set (s1 := mkState _ _).
  assert (Hc' : heap s1 !! a
                = Some (mkPoint (f_add (p_x c) (f_of_int x)) (p_y c)))
    by now apply list_lookup_insert_eq.
  rewrite (bind_Ok _ _ _ _ _ (get_y_Ok s1 _ _ Hc')).
  rewrite (set_y_Ok s1 _ _ _ Hc'). subst s1. cbn [heap log p_x p_y].
  rewrite list_insert_insert_eq.
  now rewrite <- (insert_as_alter _ _ c (offset_v x y)).
Qed.

Lemma _offset_points_Ok (x y : Z) l s :
  valid (heap s) l ->
  _offset_points x y l s
  = Ok tt (mkState (alter_all (offset_v x y) l (heap s)) (log s)).
Proof.
  intros Hv. unfold _offset_points.
  apply (for_each_alter (offset_v x y)); [| exact Hv].
  intros a s'. apply offset_cell_Ok.
Qed.

Lemma _rotate_points_Ok (angle : Z) l s :
  valid (heap s) l ->
  _rotate_points l angle s
  = Ok tt (mkState (alter_all (rotate_points_v angle) l (heap s)) (log s)).
Proof.
  intros Hv. unfold _rotate_points.
  apply (for_each_alter (rotate_points_v angle)); [| exact Hv].
  intros a s' Ha. destruct (lookup_lt_is_Some_2 _ _ Ha) as [c Hc].
  mstep (get_x_Ok _ _ _ Hc). mstep (get_y_Ok _ _ _ Hc).
  mstep (get_x_Ok _ _ _ Hc). mstep (get_y_Ok _ _ _ Hc).
  mstep (set_x_Ok _ _ _
           (f_sub (f_mul (p_x c) (math_cos (math_radians (f_of_int angle))))
                  (f_mul (p_y c) (math_sin (math_radians (f_of_int angle))))) Hc).
  set (s1 := mkState _ _).
  assert (Hc' : heap s1 !! a = Some (mkPoint
      (f_sub (f_mul (p_x c) (math_cos (math_radians (f_of_int angle))))
             (f_mul (p_y c) (math_sin (math_radians (f_of_int angle))))) (p_y c)))
    by now apply list_lookup_insert_eq.
  rewrite (set_y_Ok s1 _ _ _ Hc'). subst s1. cbn [heap log p_x p_y].
  rewrite list_insert_insert_eq.
  now rewrite <- (insert_as_alter _ _ c (rotate_points_v angle)).
Qed.

(** The candidate check on distinct objects, with the state it leaves: the
    working copy is made of the [length points] objects that follow the
    objects of [s], and the objects of the mirror loop follow it. *)
Lemma check_candidate_NoDup_state self points dvals half_length index s :
  NoDup points -> points_to (heap s) points dvals ->
  length points = 2 * half_length -> index < half_length ->
  let c := seq (length (heap s)) (length points) in
  let w := work_v dvals index half_length in
  check_candidate self points half_length index s
  = Ok (verdict_v dvals index)
       (mkState (heap s ++ w ++ mirror_temps w index (seq 0 half_length))
          (log s ++ ev (_original_callback self) (Original index points)
                 ++ ev (_translate_callback self) (Translated index c)
                 ++ ev (_rotate_callback self) (Rotated index c))).
Proof.
  intros Hnd Hp El Hi c w.
  assert (Ed : length dvals = length points) by (symmetry; eapply Forall2_length, Hp).
  set (s0 := mkState (heap s)
               (log s ++ ev (_original_callback self) (Original index points))).
  assert (Ecopy : deepcopy points s0 = Ok c (mkState (heap s ++ dvals) (log s0))).
  { unfold deepcopy. apply (deepcopy_from_NoDup points ∅ s0 dvals Hp Hnd).
    intros a _. apply lookup_empty. }
  set (s1 := mkState (heap s ++ dvals) _) in Ecopy.
  assert (Ew : work_heap (heap s1) c index half_length = heap s ++ w).
  { subst c s1. cbn [heap]. rewrite <- Ed. apply work_heap_seq. lia. }
  assert (Hv1 : valid (heap s1) c).
  { subst c s1. cbn [heap]. rewrite <- Ed. apply valid_seq_app. }
  assert (Hp3 : points_to (work_heap (heap s1) c index half_length) c w).
  { rewrite Ew. subst c w. rewrite <- Ed, <- (length_work_v dvals index half_length).
    apply points_to_seq. }
  rewrite (check_candidate_with_copy self points half_length index s c s1 _
             Ecopy Hv1 ltac:(subst c; rewrite length_seq; lia) Hi Hp3).
  rewrite Ew. subst s1 s0. cbn [log].
  rewrite <- !app_assoc.
  unfold verdict_v. now rewrite Ed, El, half_double.
Qed.




End MoreBasics.

Section MoreProperties.
Context {F : Type} `{Float F} `{Overflow F}.

Lemma doubled_entry (pts : list addr) (b j : nat) :
  j < 2 * length pts ->
  let points := interleave pts (seq b (length pts)) in
  (Nat.even j = true /\ points !!! j ∈ pts) \/
  (Nat.even j = false /\ exists k, k < length pts /\ points !!! j = b + k).
Proof.
  intros Hj points.
  assert (El : length pts = length (seq b (length pts))) by now rewrite length_seq.
  destruct (Nat.Even_or_Odd j) as [[k ->] | [k ->]].
  - left. split; [apply Nat.even_spec; now exists k |].
    destruct (lookup_lt_is_Some_2 pts k ltac:(lia)) as [a Ha].
    assert (E : points !! (2 * k) = Some a)
      by (subst points; now rewrite lookup_interleave_even).
    rewrite (list_lookup_total_correct _ _ _ E).
    eapply list_elem_of_lookup_2, Ha.
  - right. split.
    + rewrite <- Nat.negb_odd. apply negb_false_iff, Nat.odd_spec. now exists k.
    + assert (E : points !! (2 * k + 1) = Some (b + k)).
      { subst points. rewrite lookup_interleave_odd by exact El.
        apply lookup_seq_lt. lia. }
      rewrite (list_lookup_total_correct _ _ _ E). exists k. split; [lia | reflexivity].
Qed.

(** X1.  A call of [get_lines_of_symmetry] that returns gives at most one
    axis for each point of the input; a call that does not return raises
    [OverflowError], which takes a value whose square overflows. *)
Theorem axes_at_most_points (self : Symmetry) (s : state F) :
  valid (heap s) (_points self) ->
  (exists axes s',
     Checked.get_lines_of_symmetry self s = Ok axes s' /\
     length axes <= length (_points self)) \/
  (Checked.get_lines_of_symmetry self s = Raise OverflowError /\
   exists v, pow2_overflows v = true).
Proof.
  intros Hv. destruct (valid_points_to _ _ Hv) as [vals Hp].
  destruct (get_lines_of_symmetry_spec self s vals Hp)
    as (_ & _ & _ & extra & evs & E & _).
  destruct (checked_refines self s) as [Ec | Ec]; [left | now right].
  rewrite Ec. eexists _, _. split; [exact E |].
  rewrite length_map.
  match goal with |- length (confirmed ?a ?b ?c ?d ?e) <= _ =>
    pose proof (sublist_length _ _ (confirmed_sublist a b c d e)) as Hle end.
  now rewrite length_seq in Hle.
Qed.

(** X2.  The two ends of an axis that the call returns are points of the
    input or midpoints made by the call: for an input of even length an axis
    joins two points of the input or two midpoints, for an input of odd
    length it joins a point of the input and a midpoint.  A midpoint is one
    of the [n] objects that the doubling creates, the [k]-th of them holding
    the midpoint of the points [k] and [k + 1] of the input (of the last
    and the first for [k = n - 1]).  A call that does not return raises
    [OverflowError]. *)
Theorem axis_ends_by_parity (self : Symmetry) (vals : list (Point F))
    (s : state F) :
  points_to (heap s) (_points self) vals ->
  let n := length (_points self) in
  (exists axes s',
     Checked.get_lines_of_symmetry self s = Ok axes s' /\
     Forall (fun ab : addr * addr =>
               let vertex a := a ∈ _points self in
               let midpoint a :=
                 exists k, k < n /\ a = length (heap s) + k /\
                   heap s' !! a
                   = Some (midpoint_v (vals !!! k) (vals !!! ((k + 1) mod n))) in
               if Nat.even n
               then (vertex ab.1 /\ vertex ab.2) \/ (midpoint ab.1 /\ midpoint ab.2)
               else (vertex ab.1 /\ midpoint ab.2) \/ (midpoint ab.1 /\ vertex ab.2))
            axes) \/
  (Checked.get_lines_of_symmetry self s = Raise OverflowError /\
   exists v, pow2_overflows v = true).
Proof.
  intros Hp n.
  assert (En : length vals = n) by (symmetry; eapply Forall2_length, Hp).
  destruct (get_lines_of_symmetry_spec self s vals Hp)
    as (_ & _ & _ & extra & evs & E & _).
  destruct (checked_refines self s) as [Ec | Ec]; [left | now right].
  rewrite Ec. eexists _, _. split; [exact E |].
  assert (Hmid : forall a, (exists k, k < n /\ a = length (heap s) + k) ->
            exists k, k < n /\ a = length (heap s) + k /\
              ((heap s ++ midpoints_v vals) ++ extra) !! a
              = Some (midpoint_v (vals !!! k) (vals !!! ((k + 1) mod n)))).
  { intros a (k & Hk & ->). exists k. split; [exact Hk |]. split; [reflexivity |].
    rewrite lookup_app_l by (rewrite length_app, length_midpoints_v; lia).
    rewrite lookup_app_r by lia.
    replace (length (heap s) + k - length (heap s)) with k by lia.
    rewrite <- En. apply lookup_midpoints_v. lia. }
  cbn [heap].
  apply Forall_forall. intros ab Hab.
  apply list_elem_of_fmap in Hab as (i & -> & Hi).
  match type of Hi with i ∈ confirmed ?a ?b ?c ?d ?e =>
    pose proof (elem_of_sublist _ _ _ Hi (confirmed_sublist a b c d e)) as Hi' end.
  apply elem_of_seq in Hi'.
  unfold axis. cbn [fst snd].
  pose proof (doubled_entry (_points self) (length (heap s)) i ltac:(fold n; lia)) as H1.
  pose proof (doubled_entry (_points self) (length (heap s)) (i + n)
                ltac:(fold n; lia)) as H2.
  fold n in H1, H2. cbv zeta in H1, H2.
  rewrite Nat.even_add in H2.
  destruct (Nat.even n), H1 as [[Ei Hi1] | [Ei Hi1]], H2 as [[Ej Hj1] | [Ej Hj1]];
    rewrite Ei in Ej; cbn in Ej; try discriminate;
    try apply Hmid in Hi1; try apply Hmid in Hj1; tauto.
Qed.



(** X5.  [_translate_shape] shifts each object once for each of its
    occurrences in the list (an object listed twice moves twice) and leaves
    every other object where it is. *)
Theorem translate_shape_per_occurrence (points : list addr) (dx dy : F)
    (s : state F) :
  valid (heap s) points ->
  exists s',
    _translate_shape points dx dy s = Ok tt s' /\
    log s' = log s /\
    forall a,
      heap s' !! a
      = Nat.iter (count_occ Nat.eq_dec points a)
          (fun c => mkPoint (f_sub (p_x c) dx) (f_sub (p_y c) dy))
        <$> heap s !! a.
Proof.
  intros Hv. eexists. split; [apply (_translate_shape_Ok dx dy _ _ Hv) |].
  split; [reflexivity |]. intros a. cbn [heap].
  apply lookup_alter_all_count.
Qed.

(** X6.  The points that [_init_view] hands to [Symmetry] are new objects,
    one list entry for each point of the selected shape, and the points of
    the shape keep their coordinates, whatever the offsets and the
    rotation. *)
Theorem init_view_points_fresh (self_points : list addr) (xoffset yoffset rotation : Z)
    (s : state F) :
  valid (heap s) self_points ->
  exists points s',
    _init_view_points self_points xoffset yoffset rotation s = Ok points s' /\
    length points = length self_points /\
    Forall (fun q => length (heap s) <= q < length (heap s')) points /\
    (forall a c, heap s !! a = Some c -> heap s' !! a = Some c) /\
    log s' = log s.
Proof.
  intros Hv.
  destruct (deepcopy_from_Ok self_points ∅ s (length (heap s)))
    as (c & extra & Ecopy & Hlc & Hc); [exact Hv | lia | apply map_Forall_empty |].
  assert (Hv1 : valid (heap s ++ extra) c).
  { unfold valid. eapply Forall_impl; [exact Hc |]. intros q Hq. simpl in *. lia. }
  assert (Hab : Forall (fun q => length (heap s) <= q) c).
  { eapply Forall_impl; [exact Hc |]. intros q Hq. simpl in *. lia. }
  destruct (alter_all_above (offset_v xoffset yoffset) c (heap s) extra Hab)
    as (k2 & E2 & Hl2).
  destruct (alter_all_above (rotate_points_v rotation) c (heap s) k2 Hab)
    as (k3 & E3 & Hl3).
  exists c, (mkState (heap s ++ k3) (log s)).
  split; [| split; [exact Hlc | split; [| split]]].
  - unfold _init_view_points. unfold deepcopy. mstep Ecopy.
    mstep (_offset_points_Ok xoffset yoffset c
             (mkState (heap s ++ extra) (log s)) Hv1).
    cbn [heap log]. rewrite E2.
    assert (Hv2 : valid (heap (mkState (heap s ++ k2) (log s))) c).
    { cbn [heap]. eapply valid_same_length; [| exact Hv1].
      rewrite !length_app. lia. }
    mstep (_rotate_points_Ok rotation c (mkState (heap s ++ k2) (log s)) Hv2).
    cbn [heap log]. now rewrite E3.
  - eapply Forall_impl; [exact Hc |]. intros q Hq. cbn [heap] in *.
    rewrite length_app in *. lia.
  - intros a p Ha. cbn [heap]. now apply lookup_app_l_Some.
  - reflexivity.
Qed.

End MoreProperties.

(** ** Further properties in exact arithmetic *)

Open Scope R_scope.

Lemma close_v_sym (a b : Point R) : close_v a b = close_v b a.
Proof. unfold close_v, distance_v. cbn. do 2 f_equal. ring. Qed.

Lemma close_v_refl (a : Point R) : close_v a a = true.
Proof.
  apply close_v_iff.
  replace ((p_x a - p_x a) * (p_x a - p_x a) + (p_y a - p_y a) * (p_y a - p_y a))
    with 0 by ring.
  rewrite sqrt_0. lra.
Qed.

Lemma distance_v_R (a b : Point R) :
  distance_v a b
  = sqrt ((p_x b - p_x a) * (p_x b - p_x a) + (p_y b - p_y a) * (p_y b - p_y a)).
Proof. reflexivity. Qed.

Lemma sum_sq_nonneg (a b : R) : 0 <= a * a + b * b.
Proof.
  pose proof (Rle_0_sqr a) as Ha. pose proof (Rle_0_sqr b) as Hb.
  unfold Rsqr in *. lra.
Qed.

Lemma distance_v_midpoint_l (a b : Point R) :
  distance_v a (midpoint_v a b) = distance_v a b / 2.
Proof.
  rewrite !distance_v_R. cbn.
  set (q := (p_x b - p_x a) * (p_x b - p_x a) + (p_y b - p_y a) * (p_y b - p_y a)).
  assert (Hq : 0 <= q) by apply sum_sq_nonneg.
  pose proof (sqrt_pos q) as Hr. pose proof (sqrt_sqrt q Hq) as Hrr.
  apply sqrt_lem_1; [apply sum_sq_nonneg | lra |].
  transitivity (sqrt q * sqrt q / 4); [field |].
  rewrite Hrr. subst q. field.
Qed.

Lemma distance_v_midpoint_r (a b : Point R) :
  distance_v (midpoint_v a b) b = distance_v a b / 2.
Proof.
  rewrite !distance_v_R. cbn.
  set (q := (p_x b - p_x a) * (p_x b - p_x a) + (p_y b - p_y a) * (p_y b - p_y a)).
  assert (Hq : 0 <= q) by apply sum_sq_nonneg.
  pose proof (sqrt_pos q) as Hr. pose proof (sqrt_sqrt q Hq) as Hrr.
  apply sqrt_lem_1; [apply sum_sq_nonneg | lra |].
  transitivity (sqrt q * sqrt q / 4); [field |].
  rewrite Hrr. subst q. field.
Qed.

Lemma rotate_v_compose (a b : R) (c : Point R) :
  rotate_v b (rotate_v a c) = rotate_v (a + b) c.
Proof.
  unfold rotate_v. cbn.
  rewrite (Rmult_plus_distr_r a b (PI / 180)), cos_plus, sin_plus.
  f_equal; ring.
Qed.

Lemma rotate_v_0 (c : Point R) : rotate_v 0 c = c.
Proof.
  unfold rotate_v. cbn. rewrite Rmult_0_l, cos_0, sin_0.
  destruct c as [x y]. cbn. f_equal; ring.
Qed.

Lemma distance_v_rotate (a : R) (p q : Point R) :
  distance_v (rotate_v a p) (rotate_v a q) = distance_v p q.
Proof.
  rewrite !distance_v_R. unfold rotate_v. cbn.
  set (t := a * (PI / 180)).
  pose proof (sin2_cos2 t) as Hsc. unfold Rsqr in Hsc.
  f_equal.
  transitivity ((sin t * sin t + cos t * cos t)
                * ((p_x q - p_x p) * (p_x q - p_x p)
                   + (p_y q - p_y p) * (p_y q - p_y p))); [ring |].
  rewrite Hsc. ring.
Qed.

Lemma distance_v_translate (dx dy : R) (p q : Point R) :
  distance_v (translate_v dx dy p) (translate_v dx dy q) = distance_v p q.
Proof. rewrite !distance_v_R. cbn. f_equal. ring. Qed.

(** The working copy is the doubled list moved without deformation. *)
Lemma distance_v_work (dbl : list (Point R)) (index half_length j k : nat) :
  (j < length dbl)%nat -> (k < length dbl)%nat ->
  (index + half_length < length dbl)%nat ->
  distance_v (work_v dbl index half_length !!! j) (work_v dbl index half_length !!! k)
  = distance_v (dbl !!! j) (dbl !!! k).
Proof.
  intros Hj Hk Hi. rewrite !work_v_lookup by assumption.
  now rewrite distance_v_rotate, distance_v_translate.
Qed.

(** In the working copy [pf] is at the origin and [po] on the x-axis, at
    the distance that separates them in the doubled list. *)
Lemma work_v_pivot (dbl : list (Point R)) (index half_length : nat) :
  (index + half_length < length dbl)%nat ->
  work_v dbl index half_length !!! index = mkPoint 0 0 /\
  work_v dbl index half_length !!! (index + half_length)%nat
  = mkPoint (distance_v (dbl !!! index) (dbl !!! (index + half_length)%nat)) 0.
Proof.
  intros Hi. rewrite distance_v_R.
  set (pf := dbl !!! index). set (po := dbl !!! (index + half_length)%nat).
  set (dx := p_x po - p_x pf). set (dy := p_y po - p_y pf).
  destruct (Req_dec dx 0) as [Ex | Ex]; [destruct (Req_dec dy 0) as [Ey | Ey] |].
  - rewrite !work_v_lookup_null by (assumption || lia). fold pf po dx dy.
    rewrite Ex, Ey.
    replace (0 * 0 + 0 * 0) with 0 by ring. rewrite sqrt_0.
    split; f_equal; ring.
  - assert (Hd : dx <> 0 \/ dy <> 0) by now right.
    pose proof (hypot_pos dx dy Hd) as Hr.
    assert (Hrr : sqrt (dx * dx + dy * dy) * sqrt (dx * dx + dy * dy)
                  = dx * dx + dy * dy) by (apply sqrt_sqrt; nra).
    rewrite !work_v_lookup_axis by (assumption || lia). fold pf po dx dy.
    split; f_equal; try (unfold Rdiv; ring).
    rewrite <- Hrr at 1. field. lra.
  - assert (Hd : dx <> 0 \/ dy <> 0) by now left.
    pose proof (hypot_pos dx dy Hd) as Hr.
    assert (Hrr : sqrt (dx * dx + dy * dy) * sqrt (dx * dx + dy * dy)
                  = dx * dx + dy * dy) by (apply sqrt_sqrt; nra).
    rewrite !work_v_lookup_axis by (assumption || lia). fold pf po dx dy.
    split; f_equal; try (unfold Rdiv; ring).
    rewrite <- Hrr at 1. field. lra.
Qed.

(** A translation of the polygon does not change the working copy. *)
Lemma work_v_translation (tx ty : R) (dbl : list (Point R)) (index half_length : nat) :
  (index < length dbl)%nat ->
  work_v (map (rigid_v 1 0 tx ty) dbl) index half_length
  = work_v dbl index half_length.
Proof.
  intros Hi. unfold work_v.
  rewrite (list_lookup_total_fmap (rigid_v 1 0 tx ty)) by lia.
  set (pf := dbl !!! index).
  assert (E : map (translate_v (p_x (rigid_v 1 0 tx ty pf)) (p_y (rigid_v 1 0 tx ty pf)))
                  (map (rigid_v 1 0 tx ty) dbl)
              = map (translate_v (p_x pf) (p_y pf)) dbl).
  { rewrite map_map. apply map_ext. intros q. unfold translate_v, rigid_v. cbn.
    f_equal; ring. }
  now rewrite E.
Qed.

Lemma symmetric_indices_translation (tx ty : R) (polygon : list (Point R)) :
  symmetric_indices (map (rigid_v 1 0 tx ty) polygon) = symmetric_indices polygon.
Proof.
  assert (Hcs : 1 * 1 + 0 * 0 = 1) by ring.
  unfold symmetric_indices. rewrite length_map, (double_v_rigid 1 0 tx ty).
  apply List.filter_ext_in. intros i Hi. apply in_seq in Hi.
  unfold verdict_v. rewrite length_map, work_v_translation; [reflexivity |].
  rewrite length_double_v. lia.
Qed.

Lemma symmetric_indices_rigid (c s tx ty : R) (polygon : list (Point R)) :
  c * c + s * s = 1 ->
  (forall i, (i < length polygon)%nat ->
     double_v polygon !!! i <> double_v polygon !!! (i + length polygon)%nat) ->
  symmetric_indices (map (rigid_v c s tx ty) polygon) = symmetric_indices polygon.
Proof.
  intros Hcs Hne.
  unfold symmetric_indices. rewrite length_map, (double_v_rigid c s tx ty).
  apply List.filter_ext_in. intros i Hi. apply in_seq in Hi.
  pose proof (length_double_v polygon) as El.
  apply (verdict_v_rigid c s tx ty Hcs); rewrite El, half_double.
  - reflexivity.
  - lia.
  - apply Hne. lia.
Qed.

(** X7.  After the translation and the rotation of a candidate, the
    working copy (the list handed to the rotate callback) has its point
    [index] at the origin and its point [index + half_length] on the x-axis,
    at the distance that separates the two points in the doubled list. *)
Theorem candidate_axis_on_x_axis (self : Symmetry) (points : list addr)
    (dvals : list (Point R)) (half_length index : nat) (s : state R) :
  NoDup points -> points_to (heap s) points dvals ->
  length points = (2 * half_length)%nat -> (index < half_length)%nat ->
  let c := seq (length (heap s)) (length points) in
  exists symmetrical s',
    check_candidate self points half_length index s = Ok symmetrical s' /\
    log s' = log s ++ ev (_original_callback self) (Original index points)
                   ++ ev (_translate_callback self) (Translated index c)
                   ++ ev (_rotate_callback self) (Rotated index c) /\
    heap s' !! (c !!! index) = Some (mkPoint 0 0) /\
    heap s' !! (c !!! (index + half_length)%nat)
    = Some (mkPoint (distance_v (dvals !!! index)
                       (dvals !!! (index + half_length)%nat)) 0).
Proof.
  intros Hnd Hp El Hi c.
  assert (Ed : length dvals = length points) by (symmetry; eapply Forall2_length, Hp).
  eexists _, _.
  split; [apply (check_candidate_NoDup_state self points dvals half_length index s
                   Hnd Hp El Hi) |].
  split; [reflexivity |]. cbn [heap].
  destruct (work_v_pivot dvals index half_length ltac:(lia)) as [E1 E2].
  assert (Hl : forall k, (k < length points)%nat ->
            (heap s ++ work_v dvals index half_length
               ++ mirror_temps (work_v dvals index half_length) index
                    (seq 0 half_length)) !! (c !!! k)
            = Some (work_v dvals index half_length !!! k)).
  { intros k Hk. subst c. rewrite lookup_total_seq_lt by exact Hk.
    rewrite lookup_app_r by lia.
    replace (length (heap s) + k - length (heap s))%nat with k by lia.
    rewrite lookup_app_l by (rewrite length_work_v; lia).
    apply list_lookup_lookup_total_lt. rewrite length_work_v. lia. }
  rewrite !Hl by lia. now rewrite E1, E2.
Qed.

(** X8.  The translation and the rotation of a candidate move the working
    copy without deforming it: after the check, [_get_distance] between two
    points of the working copy is [_get_distance] between the two points of
    the doubled list they were copied from. *)
Theorem working_copy_keeps_distances (self : Symmetry) (points : list addr)
    (dvals : list (Point R)) (half_length index : nat) (s : state R) :
  NoDup points -> points_to (heap s) points dvals ->
  length points = (2 * half_length)%nat -> (index < half_length)%nat ->
  let c := seq (length (heap s)) (length points) in
  exists symmetrical s',
    check_candidate self points half_length index s = Ok symmetrical s' /\
    forall j k, (j < length points)%nat -> (k < length points)%nat ->
      exists d,
        _get_distance (points !!! j) (points !!! k) s = Ok d s /\
        _get_distance (c !!! j) (c !!! k) s' = Ok d s'.
Proof.
  intros Hnd Hp El Hi c.
  assert (Ed : length dvals = length points) by (symmetry; eapply Forall2_length, Hp).
  eexists _, _.
  split; [apply (check_candidate_NoDup_state self points dvals half_length index s
                   Hnd Hp El Hi) |].
  intros j k Hj Hk. exists (distance_v (dvals !!! j) (dvals !!! k)). split.
  - destruct (points_to_lookup _ _ _ j Hp Hj) as (a1 & Ha1 & Hc1).
    destruct (points_to_lookup _ _ _ k Hp Hk) as (a2 & Ha2 & Hc2).
    rewrite (list_lookup_total_correct _ _ _ Ha1).
    rewrite (list_lookup_total_correct _ _ _ Ha2).
    now apply _get_distance_Ok.
  - rewrite <- (distance_v_work dvals index half_length j k) by lia.
    apply _get_distance_Ok; cbn [heap]; subst c;
      rewrite lookup_total_seq_lt by assumption;
      rewrite lookup_app_r by lia;
      match goal with |- context [(?a + ?i - ?a)%nat] =>
        replace (a + i - a)%nat with i by lia end;
      rewrite lookup_app_l by (rewrite length_work_v; lia);
      apply list_lookup_lookup_total_lt; rewrite length_work_v; lia.
Qed.

(** X9.  A translation of all the points of a polygon, any polygon, leaves
    the axes found unchanged (the same candidates are confirmed). *)
Theorem translation_same_axes (polygon : list (Point R)) (tx ty : R) :
  exists axes s1 s2,
    detect polygon = Ok axes s1 /\
    detect (map (fun p => mkPoint (p_x p + tx) (p_y p + ty)) polygon) = Ok axes s2.
Proof.
  assert (Em : map (fun p => mkPoint (p_x p + tx) (p_y p + ty)) polygon
               = map (rigid_v 1 0 tx ty) polygon).
  { apply map_ext. intros p. unfold rigid_v. f_equal; ring. }
  rewrite Em.
  destruct (detect_spec polygon) as [s1 E1].
  destruct (detect_spec (map (rigid_v 1 0 tx ty) polygon)) as [s2 E2].
  rewrite length_map, symmetric_indices_translation in E2.
  eexists _, s1, s2. split; [exact E1 | exact E2].
Qed.

(** X10.  [_points_really_close] does not depend on the order of its two
    points, and a point is close to itself. *)
Theorem points_really_close_symmetric (s : state R) (p1 p2 : addr)
    (c1 c2 : Point R) :
  heap s !! p1 = Some c1 -> heap s !! p2 = Some c2 ->
  _points_really_close p1 p2 s = _points_really_close p2 p1 s /\
  _points_really_close p1 p1 s = Ok true s.
Proof.
  intros H1 H2.
  rewrite (_points_really_close_Ok s p1 p2 c1 c2 H1 H2).
  rewrite (_points_really_close_Ok s p2 p1 c2 c1 H2 H1).
  rewrite (_points_really_close_Ok s p1 p1 c1 c1 H1 H1).
  now rewrite close_v_sym, close_v_refl.
Qed.

(** X11.  The point that [_get_midpoint] builds is at half the distance of
    the two points from each of them. *)
Theorem midpoint_halves_distance (s : state R) (p1 p2 : addr) (c1 c2 : Point R) :
  heap s !! p1 = Some c1 -> heap s !! p2 = Some c2 ->
  exists m s' d,
    _get_midpoint p1 p2 s = Ok m s' /\
    _get_distance p1 p2 s' = Ok d s' /\
    _get_distance p1 m s' = Ok (d / 2) s' /\
    _get_distance m p2 s' = Ok (d / 2) s'.
Proof.
  intros H1 H2. eexists _, _, (distance_v c1 c2).
  split; [apply (_get_midpoint_Ok _ _ _ _ _ H1 H2) |].
  set (s' := mkState _ _).
  assert (H1' : heap s' !! p1 = Some c1) by now apply lookup_app_l_Some.
  assert (H2' : heap s' !! p2 = Some c2) by now apply lookup_app_l_Some.
  assert (Hm : heap s' !! length (heap s) = Some (midpoint_v c1 c2)).
  { subst s'. cbn [heap]. rewrite lookup_app_r by lia. now rewrite Nat.sub_diag. }
  split; [now apply _get_distance_Ok |]. split.
  - rewrite <- distance_v_midpoint_l. now apply _get_distance_Ok.
  - rewrite <- distance_v_midpoint_r. now apply _get_distance_Ok.
Qed.

Lemma alter_alter (f g : Point R -> Point R) (i : nat) (l : list (Point R)) :
  alter f i (alter g i l) = alter (fun c => f (g c)) i l.
Proof.
  apply list_eq. intros j. destruct (decide (i = j)) as [-> | Hne].
  - rewrite !list_lookup_alter_eq. now destruct (l !! j).
  - now rewrite !list_lookup_alter_ne.
Qed.

(** X12.  [_rotate_point] by an angle and then by another is
    [_rotate_point] by their sum, and a rotation followed by the opposite
    rotation puts the point back. *)
Theorem rotate_point_compose (s : state R) (p : addr) (a b : R) :
  (p < length (heap s))%nat ->
  (_rotate_point p a ;; _rotate_point p b) s = _rotate_point p (a + b) s /\
  (_rotate_point p a ;; _rotate_point p (- a)) s = Ok tt s.
Proof.
  intros Hp.
  assert (Hp' : forall a0, (p < length (heap (mkState (alter (rotate_v a0) p (heap s))
                                               (log s))))%nat)
    by (intros a0; cbn [heap]; now rewrite length_alter).
  assert (Ec : forall a0 b0,
            (_rotate_point p a0 ;; _rotate_point p b0) s
            = Ok tt (mkState (alter (rotate_v (a0 + b0)) p (heap s)) (log s))).
  { intros a0 b0. mstep (_rotate_point_Ok a0 p s Hp).
    rewrite (_rotate_point_Ok b0 p _ (Hp' a0)). cbn [heap log].
    f_equal. f_equal. rewrite alter_alter.
    apply list_alter_ext; [| reflexivity]. intros c _.
    apply rotate_v_compose. }
  split.
  - now rewrite Ec, (_rotate_point_Ok (a + b) p s Hp).
  - rewrite Ec. replace (a + - a) with 0 by ring.
    rewrite list_alter_id by apply rotate_v_0. now rewrite state_eta.
Qed.

Close Scope R_scope.

Section InitView.
Context {F : Type} `{Float F}.

(** The points of [_init_view] for a shape of distinct objects. *)
Lemma _init_view_points_NoDup (self_points : list addr) (vals : list (Point F))
    (xoffset yoffset rotation : Z) (s : state F) :
  NoDup self_points -> points_to (heap s) self_points vals ->
  _init_view_points self_points xoffset yoffset rotation s
  = Ok (seq (length (heap s)) (length self_points))
       (mkState (heap s ++ map (rotate_points_v rotation)
                             (map (offset_v xoffset yoffset) vals))
                (log s)).
Proof.
  intros Hnd Hp.
  assert (Ed : length vals = length self_points)
    by (symmetry; eapply Forall2_length, Hp).
  unfold _init_view_points, deepcopy.
  assert (Ecopy : deepcopy_from ∅ self_points s
                  = Ok (seq (length (heap s)) (length self_points))
                       (mkState (heap s ++ vals) (log s))).
  { apply (deepcopy_from_NoDup self_points ∅ s vals Hp Hnd).
    intros a _. apply lookup_empty. }
  mstep Ecopy. rewrite <- Ed.
  mstep (_offset_points_Ok xoffset yoffset (seq (length (heap s)) (length vals))
           (mkState (heap s ++ vals) (log s)) (valid_seq_app (heap s) vals)).
  cbn [heap log]. rewrite alter_all_seq.
  set (v1 := map (offset_v xoffset yoffset) vals).
  assert (E1 : length vals = length v1) by (subst v1; now rewrite length_map).
  rewrite E1.
  mstep (_rotate_points_Ok rotation (seq (length (heap s)) (length v1))
           (mkState (heap s ++ v1) (log s)) (valid_seq_app (heap s) v1)).
  cbn [heap log]. now rewrite alter_all_seq.
Qed.

End InitView.

Open Scope R_scope.

(** The offset and the rotation of [_init_view] make a rigid motion. *)
Lemma init_view_rigid (xoffset yoffset rotation : Z) (c : Point R) :
  let t := IZR rotation * (PI / 180) in
  rotate_points_v rotation (offset_v xoffset yoffset c)
  = rigid_v (cos t) (sin t)
      (cos t * IZR xoffset - sin t * IZR yoffset)
      (sin t * IZR xoffset + cos t * IZR yoffset) c.
Proof.
  intros t. unfold rotate_points_v, offset_v, rigid_v. cbn. fold t.
  f_equal; ring.
Qed.

(** X13.  Whatever the offsets and the rotation of the sliders, the
    detector run on the points that [_init_view] prepares confirms the
    candidates of the shape itself, for a shape of distinct objects in
    which no point of the doubled list coincides with its opposite point. *)
Theorem init_view_same_candidates (self_points : list addr) (vals : list (Point R))
    (xoffset yoffset rotation : Z) (s : state R) :
  NoDup self_points -> points_to (heap s) self_points vals ->
  (forall i, (i < length vals)%nat ->
     double_v vals !!! i <> double_v vals !!! (i + length vals)%nat) ->
  let n := length self_points in
  exists points s1 s2,
    _init_view_points self_points xoffset yoffset rotation s = Ok points s1 /\
    get_lines_of_symmetry (mkSymmetry points true true true true) s1
    = Ok (map (axis (interleave points (seq (length (heap s1)) n)) n)
              (symmetric_indices vals)) s2.
Proof.
  intros Hnd Hp Hne n.
  assert (Ed : length vals = n) by (symmetry; eapply Forall2_length, Hp).
  set (t := IZR rotation * (PI / 180)).
  set (g := rigid_v (cos t) (sin t)
              (cos t * IZR xoffset - sin t * IZR yoffset)
              (sin t * IZR xoffset + cos t * IZR yoffset)).
  assert (Ev : map (rotate_points_v rotation) (map (offset_v xoffset yoffset) vals)
               = map g vals).
  { rewrite map_map. apply map_ext. intros c. apply init_view_rigid. }
  pose proof (_init_view_points_NoDup self_points vals xoffset yoffset rotation s
                Hnd Hp) as Ei.
  rewrite Ev in Ei. fold n in Ei.
  set (s1 := mkState (heap s ++ map g vals) (log s)) in *.
  assert (Hp1 : points_to (heap s1) (seq (length (heap s)) n) (map g vals)).
  { subst s1. cbn [heap]. rewrite <- Ed, <- (length_map g vals).
    apply points_to_seq. }
  destruct (get_lines_of_symmetry_NoDup
              (mkSymmetry (seq (length (heap s)) n) true true true true) s1
              (map g vals) (NoDup_seq _ _) Hp1) as [s2 E2].
  cbn [_points] in E2. rewrite length_seq in E2.
  assert (Hcs : cos t * cos t + sin t * sin t = 1).
  { pose proof (sin2_cos2 t) as Hsc. unfold Rsqr in Hsc. lra. }
  unfold g in E2. rewrite (symmetric_indices_rigid _ _ _ _ vals Hcs Hne) in E2.
  eexists _, s1, s2. split; [exact Ei | exact E2].
Qed.

(** ** The further properties at concrete inputs *)

Lemma axes_at_most_points_witness :
  let self := mkSymmetry [0; 1]%nat true true true true in
  let s := mkState upright_segment [] in
  valid (heap s) (_points self) /\
  exists axes s',
    Checked.get_lines_of_symmetry self s = Ok axes s' /\ (length axes <= 2)%nat.
Proof.
  intros self s.
  assert (Hv : valid (heap s) (_points self)) by (repeat constructor).
  split; [exact Hv |].
  destruct (axes_at_most_points self s Hv) as [Hok | [_ [v Hov]]];
    [exact Hok | discriminate Hov].
Defined.

Lemma axis_ends_by_parity_witness :
  let self := mkSymmetry [0; 1]%nat true true true true in
  let s := mkState upright_segment [] in
  points_to (heap s) (_points self) upright_segment /\
  exists axes s', Checked.get_lines_of_symmetry self s = Ok axes s'.
Proof.
  intros self s.
  assert (Hp : points_to (heap s) (_points self) upright_segment)
    by (repeat constructor).
  split; [exact Hp |].
  destruct (axis_ends_by_parity self upright_segment s Hp)
    as [(axes & s' & E & _) | [_ [v Hov]]]; [| discriminate Hov].
  exists axes, s'. exact E.
Defined.



Lemma translate_shape_per_occurrence_witness :
  let s := mkState upright_segment [] in
  valid (heap s) [1; 1]%nat /\
  exists s',
    _translate_shape [1; 1]%nat 0 3 s = Ok tt s' /\
    heap s' !! 1%nat = Some (mkPoint (0 - 0 - 0) (10 - 3 - 3)).
Proof.
  intros s.
  assert (Hv : valid (heap s) [1; 1]%nat) by (repeat constructor).
  split; [exact Hv |].
  destruct (translate_shape_per_occurrence [1; 1]%nat 0 3 s Hv) as (s' & E & _ & Hl).
  exists s'. split; [exact E |]. rewrite Hl. reflexivity.
Defined.

Lemma init_view_points_fresh_witness :
  let s := mkState upright_segment [] in
  valid (heap s) [0; 1]%nat /\
  exists points s',
    _init_view_points [0; 1]%nat 10 20 30 s = Ok points s' /\
    heap s' !! 1%nat = Some (mkPoint 0 10).
Proof.
  intros s.
  assert (Hv : valid (heap s) [0; 1]%nat) by (repeat constructor).
  split; [exact Hv |].
  destruct (init_view_points_fresh [0; 1]%nat 10 20 30 s Hv)
    as (points & s' & E & _ & _ & Hold & _).
  exists points, s'. split; [exact E |]. apply Hold. reflexivity.
Defined.

Lemma candidate_axis_on_x_axis_witness :
  let self := mkSymmetry [0; 1]%nat true true true true in
  let s := mkState upright_segment [] in
  NoDup [0; 1]%nat /\ points_to (heap s) [0; 1]%nat upright_segment /\
  length [0; 1]%nat = (2 * 1)%nat /\ (0 < 1)%nat /\
  exists symmetrical s',
    check_candidate self [0; 1]%nat 1 0 s = Ok symmetrical s' /\
    heap s' !! 2%nat = Some (mkPoint 0 0).
Proof.
  intros self s.
  assert (Hnd : NoDup [0; 1]%nat) by apply (NoDup_seq 0 2).
  assert (Hp : points_to (heap s) [0; 1]%nat upright_segment)
    by (repeat constructor).
  split; [exact Hnd |]. split; [exact Hp |]. split; [reflexivity |].
  split; [lia |].
  destruct (candidate_axis_on_x_axis self [0; 1]%nat upright_segment 1 0 s
              Hnd Hp eq_refl ltac:(lia)) as (b & s' & E & _ & H0 & _).
  exists b, s'. split; [exact E | exact H0].
Defined.

Lemma working_copy_keeps_distances_witness :
  let self := mkSymmetry [0; 1]%nat true true true true in
  let s := mkState upright_segment [] in
  NoDup [0; 1]%nat /\ points_to (heap s) [0; 1]%nat upright_segment /\
  length [0; 1]%nat = (2 * 1)%nat /\ (0 < 1)%nat /\
  exists symmetrical s' d,
    check_candidate self [0; 1]%nat 1 0 s = Ok symmetrical s' /\
    _get_distance 0%nat 1%nat s = Ok d s /\
    _get_distance 2%nat 3%nat s' = Ok d s'.
Proof.
  intros self s.
  assert (Hnd : NoDup [0; 1]%nat) by apply (NoDup_seq 0 2).
  assert (Hp : points_to (heap s) [0; 1]%nat upright_segment)
    by (repeat constructor).
  split; [exact Hnd |]. split; [exact Hp |]. split; [reflexivity |].
  split; [lia |].
  destruct (working_copy_keeps_distances self [0; 1]%nat upright_segment 1 0 s
              Hnd Hp eq_refl ltac:(lia)) as (b & s' & E & Hd).
  destruct (Hd 0%nat 1%nat ltac:(cbn; lia) ltac:(cbn; lia)) as (d & E1 & E2).
  exists b, s', d. split; [exact E |]. split; [exact E1 | exact E2].
Defined.

Lemma points_really_close_symmetric_witness :
  let s := mkState upright_segment [] in
  heap s !! 0%nat = Some (mkPoint 0 0) /\
  heap s !! 1%nat = Some (mkPoint 0 10) /\
  _points_really_close 0%nat 1%nat s = _points_really_close 1%nat 0%nat s.
Proof.
  intros s. split; [reflexivity |]. split; [reflexivity |].
  exact (proj1 (points_really_close_symmetric s 0%nat 1%nat
                  (mkPoint 0 0) (mkPoint 0 10) eq_refl eq_refl)).
Defined.

Lemma midpoint_halves_distance_witness :
  let s := mkState upright_segment [] in
  heap s !! 0%nat = Some (mkPoint 0 0) /\
  heap s !! 1%nat = Some (mkPoint 0 10) /\
  exists m s' d,
    _get_midpoint 0%nat 1%nat s = Ok m s' /\
    _get_distance 0%nat m s' = Ok (d / 2) s'.
Proof.
  intros s. split; [reflexivity |]. split; [reflexivity |].
  destruct (midpoint_halves_distance s 0%nat 1%nat (mkPoint 0 0) (mkPoint 0 10)
              eq_refl eq_refl) as (m & s' & d & E & _ & E1 & _).
  exists m, s', d. split; [exact E | exact E1].
Defined.

Lemma rotate_point_compose_witness :
  let s := mkState upright_segment [] in
  (1 < length (heap s))%nat /\
  (_rotate_point 1%nat 30 ;; _rotate_point 1%nat (- 30)) s = Ok tt s.
Proof.
  intros s.
  assert (Hp : (1 < length (heap s))%nat) by (cbn; lia).
  split; [exact Hp |]. exact (proj2 (rotate_point_compose s 1%nat 30 60 Hp)).
Defined.

Lemma init_view_same_candidates_witness :
  let s := mkState square [] in
  NoDup [0; 1; 2; 3]%nat /\ points_to (heap s) [0; 1; 2; 3]%nat square /\
  (forall i, (i < length square)%nat ->
     double_v square !!! i <> double_v square !!! (i + length square)%nat) /\
  exists points s1 axes s2,
    _init_view_points [0; 1; 2; 3]%nat 10 20 30 s = Ok points s1 /\
    get_lines_of_symmetry (mkSymmetry points true true true true) s1
    = Ok axes s2.
Proof.
  intros s.
  assert (Hnd : NoDup [0; 1; 2; 3]%nat) by apply (NoDup_seq 0 4).
  assert (Hp : points_to (heap s) [0; 1; 2; 3]%nat square) by (repeat constructor).
  assert (Hne : forall i, (i < length square)%nat ->
            double_v square !!! i <> double_v square !!! (i + length square)%nat).
  { intros i Hi. cbn [length square] in Hi.
    destruct i as [| [| [| [| i]]]]; try lia;
      cbn; intros E; injection E; intros; lra. }
  split; [exact Hnd |]. split; [exact Hp |]. split; [exact Hne |].
  destruct (init_view_same_candidates [0; 1; 2; 3]%nat square 10 20 30 s
              Hnd Hp Hne) as (points & s1 & s2 & E1 & E2).
  eexists points, s1, _, s2. split; [exact E1 | exact E2].
Defined.

Close Scope R_scope.

(** ** What the tolerance accepts *)

Section DoubledValues.
Context {F : Type} `{Float F}.

Lemma double_v_lookup_even (vals : list (Point F)) (k : nat) :
  k < length vals -> double_v vals !!! (2 * k) = vals !!! k.
Proof.
  intros Hk. apply list_lookup_total_correct. unfold double_v.
  rewrite lookup_interleave_even by now rewrite length_midpoints_v.
  now apply list_lookup_lookup_total_lt.
Qed.

Lemma double_v_lookup_odd (vals : list (Point F)) (k : nat) :
  k < length vals ->
  double_v vals !!! (2 * k + 1)
  = midpoint_v (vals !!! k) (vals !!! ((k + 1) mod length vals)).
Proof.
  intros Hk. apply list_lookup_total_correct. unfold double_v.
  rewrite lookup_interleave_odd by now rewrite length_midpoints_v.
  now apply lookup_midpoints_v.
Qed.

End DoubledValues.

Open Scope R_scope.

(** The square of the distance. *)
Definition sqdist (a b : Point R) : R :=
  (p_x b - p_x a) * (p_x b - p_x a) + (p_y b - p_y a) * (p_y b - p_y a).

Lemma distance_lt_5_iff (a b : Point R) : distance_v a b < 5 <-> sqdist a b < 25.
Proof.
  rewrite distance_v_R. fold (sqdist a b).
  assert (Hq : 0 <= sqdist a b) by apply sum_sq_nonneg.
  assert (E5 : sqrt 25 = 5) by (apply sqrt_lem_1; lra).
  split; intros Hlt.
  - destruct (Rlt_dec (sqdist a b) 25) as [Hs | Hs]; [exact Hs |].
    exfalso. assert (Hle : sqrt 25 <= sqrt (sqdist a b))
      by (apply sqrt_le_1_alt; lra). lra.
  - rewrite <- E5. apply sqrt_lt_1_alt. lra.
Qed.

Lemma abs_diff_sq_le (u v : R) :
  (Rabs v - Rabs u) * (Rabs v - Rabs u) <= (v - u) * (v - u).
Proof.
  unfold Rabs. destruct (Rcase_abs v), (Rcase_abs u); nra.
Qed.

(** Taking [(x, |y|)] of two points does not move them apart. *)
Lemma close_v_abs_of_close (a b : Point R) :
  distance_v a b < 5 -> close_v (abs_y_v a) (abs_y_v b) = true.
Proof.
  intros Hd. apply close_v_iff. cbn.
  eapply Rle_lt_trans; [| exact Hd]. rewrite distance_v_R.
  apply sqrt_le_1_alt. pose proof (abs_diff_sq_le (p_y a) (p_y b)). lra.
Qed.

Lemma sqdist_midpoint_r (c a b : Point R) :
  sqdist c (midpoint_v a b) <= (sqdist c a + sqdist c b) / 2.
Proof.
  destruct a as [ax ay], b as [bx by_], c as [cx cy]. unfold sqdist, midpoint_v. cbn.
  pose proof (Rle_0_sqr (ax - bx)) as H1. pose proof (Rle_0_sqr (ay - by_)) as H2.
  unfold Rsqr in *. lra.
Qed.

Lemma sqdist_midpoint_l (c a b : Point R) :
  sqdist (midpoint_v a b) c <= (sqdist a c + sqdist b c) / 2.
Proof.
  destruct a as [ax ay], b as [bx by_], c as [cx cy]. unfold sqdist, midpoint_v. cbn.
  pose proof (Rle_0_sqr (ax - bx)) as H1. pose proof (Rle_0_sqr (ay - by_)) as H2.
  unfold Rsqr in *. lra.
Qed.

Lemma sqdist_midpoints (a b c d : Point R) :
  sqdist (midpoint_v a b) (midpoint_v c d) <= (sqdist a c + sqdist b d) / 2.
Proof.
  destruct a as [ax ay], b as [bx by_], c as [cx cy], d as [ex ey].
  unfold sqdist, midpoint_v. cbn.
  pose proof (Rle_0_sqr ((cx - ax) - (ex - bx))) as H1.
  pose proof (Rle_0_sqr ((cy - ay) - (ey - by_))) as H2.
  unfold Rsqr in *. lra.
Qed.

(** The points of the doubled list are no further apart than the points
    of the polygon. *)
Lemma double_v_small (polygon : list (Point R)) (j k : nat) :
  (forall j k, (j < length polygon)%nat -> (k < length polygon)%nat ->
     sqdist (polygon !!! j) (polygon !!! k) < 25) ->
  (j < 2 * length polygon)%nat -> (k < 2 * length polygon)%nat ->
  sqdist (double_v polygon !!! j) (double_v polygon !!! k) < 25.
Proof.
  intros Hs Hj Hk.
  assert (Hm : forall i, (i < length polygon)%nat ->
            ((i + 1) mod length polygon < length polygon)%nat)
    by (intros i Hi; apply Nat.mod_upper_bound; lia).
  destruct (Nat.Even_or_Odd j) as [[j' ->] | [j' ->]],
           (Nat.Even_or_Odd k) as [[k' ->] | [k' ->]].
  - rewrite !double_v_lookup_even by lia. apply Hs; lia.
  - rewrite double_v_lookup_even, double_v_lookup_odd by lia.
    eapply Rle_lt_trans; [apply sqdist_midpoint_r |].
    pose proof (Hs j' k' ltac:(lia) ltac:(lia)).
    pose proof (Hs j' ((k' + 1) mod length polygon)%nat ltac:(lia)
                  (Hm k' ltac:(lia))). lra.
  - rewrite double_v_lookup_even, double_v_lookup_odd by lia.
    eapply Rle_lt_trans; [apply sqdist_midpoint_l |].
    pose proof (Hs j' k' ltac:(lia) ltac:(lia)).
    pose proof (Hs ((j' + 1) mod length polygon)%nat k' (Hm j' ltac:(lia))
                  ltac:(lia)). lra.
  - rewrite !double_v_lookup_odd by lia.
    eapply Rle_lt_trans; [apply sqdist_midpoints |].
    pose proof (Hs j' k' ltac:(lia) ltac:(lia)).
    pose proof (Hs ((j' + 1) mod length polygon)%nat
                  ((k' + 1) mod length polygon)%nat
                  (Hm j' ltac:(lia)) (Hm k' ltac:(lia))). lra.
Qed.

Lemma filter_all_true {A} (f : A -> bool) (l : list A) :
  (forall a, In a l -> f a = true) -> List.filter f l = l.
Proof.
  induction l as [| a l IH]; intros Hall; [reflexivity |].
  cbn [List.filter]. rewrite (Hall a) by now left.
  f_equal. apply IH. intros b Hb. apply Hall. now right.
Qed.

(** X14.  A polygon all of whose points are less than 5 apart from each
    other has every candidate confirmed: the call returns one axis for each
    point, whatever the shape. *)
Theorem small_polygon_all_axes (polygon : list (Point R)) :
  (forall j k, (j < length polygon)%nat -> (k < length polygon)%nat ->
     distance_v (polygon !!! j) (polygon !!! k) < 5) ->
  let n := length polygon in
  exists s',
    detect polygon
    = Ok (map (axis (interleave (seq 0 n) (seq n n)) n) (seq 0 n)) s'.
Proof.
  intros Hsmall n.
  assert (Hs : forall j k, (j < length polygon)%nat -> (k < length polygon)%nat ->
            sqdist (polygon !!! j) (polygon !!! k) < 25)
    by (intros j k Hj Hk; apply distance_lt_5_iff, Hsmall; assumption).
  destruct (detect_spec polygon) as [s' E]. exists s'. rewrite E.
  fold n. unfold symmetric_indices. fold n.
  pose proof (length_double_v polygon) as El. fold n in El.
  assert (Hall : forall i, In i (seq 0 n) -> verdict_v (double_v polygon) i = true).
  { intros i Hi. apply in_seq in Hi. unfold verdict_v.
    rewrite El, half_double. apply forallb_forall. intros m Hm.
    apply in_seq in Hm.
    unfold mirror_pair_v, mirror_left, mirror_right. rewrite length_work_v, El.
    assert (Hk : (Z.to_nat ((Z.of_nat i - Z.of_nat m) mod Z.of_nat (2 * n))
                  < 2 * n)%nat) by (apply mirror_index_lt; lia).
    apply close_v_abs_of_close.
    rewrite distance_v_work by lia.
    apply distance_lt_5_iff, double_v_small; try assumption; fold n; lia. }
  now rewrite (filter_all_true _ _ Hall).
Qed.

(** X15.  An exact mirror symmetry is found: when, for every [m], the
    points [(i - m) mod 2n] and [i + m] of the doubled list are mirror
    images of each other in the line through the points [i] and [i + n]
    (same projection on the line, opposite offsets from it), the axis of
    the candidate [i] is among the axes returned. *)
Theorem exact_symmetry_is_found (polygon : list (Point R)) (i : nat) :
  let n := length polygon in
  let D := double_v polygon in
  let pf := D !!! i in
  let po := D !!! (i + n)%nat in
  let dx := p_x po - p_x pf in
  let dy := p_y po - p_y pf in
  (i < n)%nat -> dx <> 0 \/ dy <> 0 ->
  (forall m, (m < n)%nat ->
     let a := D !!! Z.to_nat ((Z.of_nat i - Z.of_nat m) mod Z.of_nat (2 * n)) in
     let b := D !!! (i + m)%nat in
     (p_x a - p_x pf) * dx + (p_y a - p_y pf) * dy
     = (p_x b - p_x pf) * dx + (p_y b - p_y pf) * dy /\
     (p_y a - p_y pf) * dx - (p_x a - p_x pf) * dy
     = - ((p_y b - p_y pf) * dx - (p_x b - p_x pf) * dy)) ->
  exists axes s',
    detect polygon = Ok axes s' /\
    axis (interleave (seq 0 n) (seq n n)) n i ∈ axes.
Proof.
  intros n D pf po dx dy Hi Hd Hmirror.
  destruct (detect_spec polygon) as [s' E]. eexists _, s'. split; [exact E |].
  fold n. apply list_elem_of_fmap_2.
  unfold symmetric_indices. fold n D.
  apply list_elem_of_In, filter_In. split; [apply in_seq; lia |].
  pose proof (length_double_v polygon) as El. fold n D in El.
  unfold verdict_v. rewrite El, half_double.
  apply forallb_forall. intros m Hm. apply in_seq in Hm.
  destruct (Hmirror m ltac:(lia)) as [Ex Ey]. rewrite <- El in Ex, Ey.
  apply mirror_pair_axis; try (rewrite El; lia); fold pf po dx dy.
  - exact Hd.
  - exact Ex.
  - right. exact Ey.
Qed.

(** The triangle [small_triangle] has no symmetry of its own, and all three
    candidates are confirmed: its sides are shorter than the tolerance. *)
Lemma small_polygon_all_axes_witness :
  (forall j k, (j < length small_triangle)%nat -> (k < length small_triangle)%nat ->
     distance_v (small_triangle !!! j) (small_triangle !!! k) < 5) /\
  exists s', detect small_triangle = Ok [(0, 4); (3, 2); (1, 5)]%nat s'.
Proof.
  assert (Hs : forall j k, (j < length small_triangle)%nat ->
            (k < length small_triangle)%nat ->
            distance_v (small_triangle !!! j) (small_triangle !!! k) < 5).
  { intros j k Hj Hk. cbn [length small_triangle] in Hj, Hk.
    apply distance_lt_5_iff. unfold sqdist.
    destruct j as [| [| [| j]]]; try lia;
      destruct k as [| [| [| k]]]; try lia; cbn; lra. }
  split; [exact Hs |]. exact (small_polygon_all_axes small_triangle Hs).
Defined.

Lemma exact_symmetry_is_found_witness :
  (0 < length square)%nat /\
  exists axes s', detect square = Ok axes s' /\ (0, 2)%nat ∈ axes.
Proof.
  split; [cbn; lia |].
  apply (exact_symmetry_is_found square 0).
  - cbn; lia.
  - left. cbn. lra.
  - intros m Hm. cbn [length square] in Hm.
    destruct m as [| [| [| [| m]]]]; try lia; cbv zeta; eval_index; cbn; lra.
Defined.

Close Scope R_scope.
